(** * Static versus dynamic scoping: the interpreter of [scoping_demo.cpp]

    A shallow embedding of the tree-walking interpreter of
    [assignment_3/scoping_demo.cpp] and the properties its specification
    states about it.

    The C++ program works on heap objects reached through raw pointers:
    [Environment]s are created with [new] and destroyed with [delete],
    [Function]s are created with [new] and never destroyed.  The embedding
    keeps that store explicit.  An environment pointer is an index into a
    list of cells; [new] appends a cell, [delete] empties it, and an address
    is never handed out twice, so a pointer to a destroyed environment stays
    recognisable as such.  Reading or writing through such a pointer is
    undefined behaviour in C++ and is the outcome [Undefined] here.

    Recursion between [execute_stmt] and [Function::call] is not structural
    (a body is fetched from the store), so [execute_stmt] takes a bound on
    the depth of nested calls. *)

From Stdlib Require Import ZArith Lia.
From stdpp Require Import base option list gmap strings.

Set Warnings "-register-all".

Local Open Scope string_scope.
Local Open Scope nat_scope.

(** ** Data model *)

(** Pointers are addresses into the store. *)
Abbreviation env_ptr := nat (only parsing).
Abbreviation func_ptr := nat (only parsing).

(** The content of an [int] member: what a constructor wrote there, or
    nothing when the constructor left the member out of its initialiser
    list.  The program does no arithmetic, so the integers are the literals
    of the program text and their machine width plays no role. *)
Inductive int_slot : Type :=
| Init (z : Z)
| Indeterminate.

(** [Value::Type] *)
Inductive ValueType : Type := INT | FUNC.

(** [class Value]; [func_val = None] is [nullptr]. *)
Record Value : Type := mkValue {
  type : ValueType;
  int_val : int_slot;
  func_val : option func_ptr
}.

(** [Value() : type(INT), int_val(0), func_val(nullptr)] *)
Definition Value_default : Value := mkValue INT (Init 0) None.
(** [Value(int v) : type(INT), int_val(v), func_val(nullptr)] *)
Definition Value_int (v : Z) : Value := mkValue INT (Init v) None.
(** [Value(Function* f) : type(FUNC), func_val(f)]: [int_val] is not
    mentioned. *)
Definition Value_func (f : func_ptr) : Value := mkValue FUNC Indeterminate (Some f).

(** [class Expr], a tag with the member the tag selects. *)
Inductive Expr : Type :=
| INT_LIT (v : Z)
| VAR (var_name : string).

(** [class Statement], a tag with the members the tag selects. *)
Inductive Statement : Type :=
| ASSIGN (name : string) (expr : Expr)
| PRINT (expr : Expr)
| CALL (name : string)
| DEF (name : string) (body : list Statement).

(** [class Environment]: the local bindings and the parent pointer. *)
Record Environment : Type := mkEnvironment {
  vars : gmap string Value;
  parent : option env_ptr
}.

(** [class Function] *)
Record Function : Type := mkFunction {
  name : string;
  body : list Statement;
  definition_env : option env_ptr
}.

(** What reaches [std::cout], one line per event. *)
Inductive event : Type :=
| print_int (v : int_slot)
| print_line (s : string).

(** The store: environment cells ([None] once deleted), the functions
    allocated so far, and the output written so far. *)
Record State : Type := mkState {
  envs : list (option Environment);
  funcs : list Function;
  out : list event
}.

Definition empty_State : State := mkState [] [] [].

(** [std::runtime_error] *)
Inductive exn : Type := runtime_error (what : string).

(** The two failures of the specification, as the messages the code
    builds. *)
Definition UnboundVariable (n : string) : exn :=
  runtime_error ("Variable '" +:+ n +:+ "' not found").
Definition NotAFunction (n : string) : exn :=
  runtime_error ("'" +:+ n +:+ "' is not a function").

(** Result of a lookup, which leaves the store alone. *)
Inductive lookup_result : Type :=
| Found (v : Value)
| NotFound (e : exn)
| BadPointer
| Cyclic.

(** Result of a computation on the store. *)
Inductive outcome (A : Type) : Type :=
| Ok (a : A) (st : State)
| Throw (e : exn) (st : State)
| Undefined
| OutOfFuel.
Arguments Ok {A} a st.
Arguments Throw {A} e st.
Arguments Undefined {A}.
Arguments OutOfFuel {A}.

Definition bind {A B : Type} (m : outcome A) (k : A → State → outcome B) : outcome B :=
  match m with
  | Ok a st => k a st
  | Throw e st => Throw e st
  | Undefined => Undefined
  | OutOfFuel => OutOfFuel
  end.

Notation "'let*' ( x , s ) ':=' m 'in' k" := (bind m (fun x s => k))
  (at level 10, x name, s name, k at level 200).

(** ** The store operations *)

Definition env_at (st : State) (e : env_ptr) : option Environment :=
  mjoin (envs st !! e).

(** [new Environment(p)] *)
Definition new_Environment (p : option env_ptr) (st : State) : env_ptr * State :=
  (length (envs st),
   mkState (envs st ++ [Some (mkEnvironment ∅ p)]) (funcs st) (out st)).

(** [delete env] *)
Definition delete_Environment (e : env_ptr) (st : State) : State :=
  mkState (<[e := None]> (envs st)) (funcs st) (out st).

(** [new Function(n, b, def_env)] *)
Definition new_Function (f : Function) (st : State) : func_ptr * State :=
  (length (funcs st), mkState (envs st) (funcs st ++ [f]) (out st)).

(** [std::cout << ... << std::endl] *)
Definition emit (ev : event) (st : State) : State :=
  mkState (envs st) (funcs st) (out st ++ [ev]).

(** [Environment::get], by recursion along the parent chain with a bound
    [k] on the number of environments visited. *)
Fixpoint get_rec (k : nat) (h : list (option Environment)) (this : env_ptr)
    (n : string) : lookup_result :=
  match k with
  | O => Cyclic
  | S k' =>
      match h !! this with
      | Some (Some E) =>
          match vars E !! n with
          | Some v => Found v
          | None =>
              match parent E with
              | Some p => get_rec k' h p n
              | None => NotFound (UnboundVariable n)
              end
          end
      | _ => BadPointer
      end
  end.

(** A chain without a cycle visits each cell at most once. *)
Definition Environment_get (st : State) (this : env_ptr) (n : string) : lookup_result :=
  get_rec (S (length (envs st))) (envs st) this n.

(** [Environment::set]: [vars[name] = value] on this environment. *)
Definition Environment_set (this : env_ptr) (n : string) (value : Value)
    (st : State) : outcome unit :=
  match env_at st this with
  | Some E =>
      Ok tt (mkState (<[this := Some (mkEnvironment (<[n := value]> (vars E)) (parent E))]> (envs st))
                     (funcs st) (out st))
  | None => Undefined
  end.

(** ** The interpreter *)

(** [execute_expr] *)
Definition execute_expr (expr : Expr) (env : env_ptr) (scoping_mode : string)
    (st : State) : outcome Value :=
  match expr with
  | INT_LIT v => Ok (Value_int v) st
  | VAR var_name =>
      match Environment_get st env var_name with
      | Found v => Ok v st
      | NotFound e => Throw e st
      | BadPointer => Undefined
      | Cyclic => OutOfFuel
      end
  end.

(** The loop [for (const auto& stmt : body) result = execute_stmt(...)]. *)
Fixpoint for_body (exec : Statement → env_ptr → string → State → outcome Value)
    (stmts : list Statement) (env : env_ptr) (scoping_mode : string)
    (result : Value) (st : State) : outcome Value :=
  match stmts with
  | [] => Ok result st
  | stmt :: rest =>
      let* (r, st1) := exec stmt env scoping_mode st in
      for_body exec rest env scoping_mode r st1
  end.

(** [Function::call], over the statement executor it calls back. *)
Definition Function_call (exec : Statement → env_ptr → string → State → outcome Value)
    (this : Function) (call_env : env_ptr) (scoping_mode : string)
    (st : State) : outcome Value :=
  let '(env, st1) :=
    if String.eqb scoping_mode "static"
    then new_Environment (definition_env this) st
    else new_Environment (Some call_env) st in
  let* (result, st2) := for_body exec (body this) env scoping_mode Value_default st1 in
  Ok result (delete_Environment env st2).

(** [execute_stmt]; [fuel] bounds the depth of nested calls. *)
Fixpoint execute_stmt (fuel : nat) (stmt : Statement) (env : env_ptr)
    (scoping_mode : string) (st : State) : outcome Value :=
  match fuel with
  | O => OutOfFuel
  | S fuel' =>
      match stmt with
      | ASSIGN n expr =>
          let* (value, st1) := execute_expr expr env scoping_mode st in
          let* (_, st2) := Environment_set env n value st1 in
          Ok value st2
      | PRINT expr =>
          let* (value, st1) := execute_expr expr env scoping_mode st in
          Ok value (emit (print_int (int_val value)) st1)
      | CALL n =>
          match Environment_get st env n with
          | Found fv =>
              match type fv with
              | FUNC =>
                  match func_val fv with
                  | Some fp =>
                      match funcs st !! fp with
                      | Some f => Function_call (execute_stmt fuel') f env scoping_mode st
                      | None => Undefined
                      end
                  | None => Undefined
                  end
              | INT => Throw (NotAFunction n) st
              end
          | NotFound e => Throw e st
          | BadPointer => Undefined
          | Cyclic => OutOfFuel
          end
      | DEF n b =>
          let '(func, st1) := new_Function (mkFunction n b (Some env)) st in
          let* (_, st2) := Environment_set env n (Value_func func) st1 in
          Ok (Value_func func) st2
      end
  end.

(** [Function::call] with the executor of the given call depth. *)
Definition call (fuel : nat) : Function → env_ptr → string → State → outcome Value :=
  Function_call (execute_stmt fuel).

(** [run_program]: the loop discards the statements' values. *)
Definition run_program (fuel : nat) (program : list Statement)
    (scoping_mode : string) (st : State) : outcome env_ptr :=
  let '(global_env, st1) := new_Environment None st in
  let* (_, st2) := for_body (execute_stmt fuel) program global_env scoping_mode Value_default st1 in
  Ok global_env st2.

(** [example_program] *)
Definition example_program : list Statement :=
  [ ASSIGN "x" (INT_LIT 10);
    DEF "f" [ PRINT (VAR "x") ];
    DEF "g" [ ASSIGN "x" (INT_LIT 20); CALL "f" ] ].

(** [Statement call_g(Statement::CALL, "g")] *)
Definition call_g : Statement := CALL "g".

(** What [main] does for one mode: run the program in a new global
    environment, then call [g] there. *)
Definition run_and_call_g (fuel : nat) (scoping_mode : string) (st : State) : outcome env_ptr :=
  let* (env, st1) := run_program fuel example_program scoping_mode st in
  let* (_, st2) := execute_stmt fuel call_g env scoping_mode st1 in
  Ok env st2.

Definition newline : string := String (Ascii.ascii_of_nat 10) "".

(** [main] *)
Definition main (fuel : nat) (st : State) : outcome Z :=
  let* (env_static, st1) :=
    run_and_call_g fuel "static" (emit (print_line "Static Scoping Output:") st) in
  let* (env_dynamic, st2) :=
    run_and_call_g fuel "dynamic"
      (emit (print_line (newline +:+ "Dynamic Scoping Output:")) st1) in
  Ok 0%Z (delete_Environment env_dynamic (delete_Environment env_static st2)).

(** ** Vocabulary of the properties *)

(** [refines o1 o2]: [o1] ran out of fuel, or it is [o2]. *)
Definition refines {A : Type} (o1 o2 : outcome A) : Prop :=
  o1 = OutOfFuel ∨ o1 = o2.

(** [n] is bound in no environment of the chain that starts at [e], and the
    chain ends in an environment without parent. *)
Inductive unbound_along (st : State) (n : string) : env_ptr → Prop :=
| unbound_root e E :
    env_at st e = Some E → vars E !! n = None → parent E = None →
    unbound_along st n e
| unbound_step e E p :
    env_at st e = Some E → vars E !! n = None → parent E = Some p →
    unbound_along st n p →
    unbound_along st n e.

(** [stmt.stmt_type == Statement::CALL] *)
Definition is_call (stmt : Statement) : bool :=
  match stmt with CALL _ => true | _ => false end.

(** The store after [run_program] on the example: the global environment,
    at address 0, binds [x] to 10 and [f] and [g] to functions 0 and 1. *)
Definition example_store (mode : string) : State :=
  match run_program 1 example_program mode empty_State with
  | Ok _ st => st
  | _ => empty_State
  end.

(** The same store after [new Environment(global)]: environment 1 is empty
    and has the global environment as parent. *)
Definition example_child_store : State :=
  (new_Environment (Some 0) (example_store "static")).2.

(** A function whose body rebinds its own name to an integer and then
    calls that name. *)
Definition shadowing_program : list Statement :=
  [ DEF "f" [ ASSIGN "f" (INT_LIT 1); CALL "f" ] ].

(** The store after [run_program] on it: the global environment, at
    address 0, binds "f" to the function. *)
Definition shadowing_store : State :=
  match run_program 1 shadowing_program "static" empty_State with
  | Ok _ st => st
  | _ => empty_State
  end.

(** An executor writes to the environment it runs in and to no other. *)
Definition writes_own_env (exec : Statement → env_ptr → string → State → outcome Value) : Prop :=
  ∀ s e m st v st',
    exec s e m st = Ok v st' → ∀ a, a ≠ e → env_at st' a = env_at st a.

(** The functions of the demonstration of nested invocations: [f] prints
    [x], binds [x] and then calls whatever [u] was when it started, having
    pointed [u] to the empty function [stop] for the invocations below. *)
Definition nested_program : list Statement :=
  [ ASSIGN "x" (INT_LIT 0);
    DEF "stop" [];
    DEF "f" [ PRINT (VAR "x");
              ASSIGN "x" (INT_LIT 7);
              ASSIGN "t" (VAR "u");
              ASSIGN "u" (VAR "stop");
              CALL "t" ];
    ASSIGN "u" (VAR "f") ].

(** The store after [run_program] on it in mode "dynamic": the global
    environment is at address 0, [stop] is function 0 and [f] function 1. *)
Definition nested_store : State :=
  match run_program 1 nested_program "dynamic" empty_State with
  | Ok _ st => st
  | _ => empty_State
  end.

(** Parents are older than their children, and every function was defined
    in an environment that has been allocated. *)
Definition store_ok (st : State) : Prop :=
  (∀ a E p, env_at st a = Some E → parent E = Some p → p < a) ∧
  (∀ fp f d, funcs st !! fp = Some f → definition_env f = Some d →
             d < length (envs st)).

(** How a computation that starts in [st] may end. *)
Definition ends_ok {A : Type} (st : State) (o : outcome A) : Prop :=
  match o with
  | Ok _ st' | Throw _ st' => store_ok st' ∧ length (envs st) ≤ length (envs st')
  | _ => True
  end.

(** [n] resolves to [v] from [e]: the nearest environment of the chain of
    [e] that binds [n] binds it to [v]. *)
Inductive resolves (st : State) (n : string) : env_ptr → Value → Prop :=
| resolves_here e E v :
    env_at st e = Some E → vars E !! n = Some v →
    resolves st n e v
| resolves_up e E p v :
    env_at st e = Some E → vars E !! n = None → parent E = Some p →
    resolves st n p v →
    resolves st n e v.

(** [st'] comes from [st] by appending output and functions, allocating
    environments, and writing to no environment that existed in [st]. *)
Definition extends_all (st st' : State) : Prop :=
  out st `prefix_of` out st' ∧
  funcs st `prefix_of` funcs st' ∧
  length (envs st) ≤ length (envs st') ∧
  (∀ a, a < length (envs st) → env_at st' a = env_at st a).

(** The same, except that the bindings of [e] may have changed; [e] is
    still there if it was, with the same parent. *)
Definition extends_but (e : env_ptr) (st st' : State) : Prop :=
  out st `prefix_of` out st' ∧
  funcs st `prefix_of` funcs st' ∧
  length (envs st) ≤ length (envs st') ∧
  (∀ a, a ≠ e → a < length (envs st) → env_at st' a = env_at st a) ∧
  (∀ E, env_at st e = Some E → ∃ E', env_at st' e = Some E' ∧ parent E' = parent E).

(** An outcome that carries a store carries one that extends [st]. *)
Definition extends {A : Type} (e : env_ptr) (st : State) (o : outcome A) : Prop :=
  match o with
  | Ok _ st' | Throw _ st' => extends_but e st st'
  | _ => True
  end.

(** A function value that can be called: its pointer is that of an
    allocated function whose definition environment, if any, is live. *)
Definition callable (st : State) (v : Value) : Prop :=
  type v = FUNC →
  ∃ fp f, func_val v = Some fp ∧ funcs st !! fp = Some f ∧
          ∀ d, definition_env f = Some d → is_Some (env_at st d).

(** No live environment holds a pointer to a deleted one: parents are live
    and older, and the function values bound are callable. *)
Definition no_dangling (st : State) : Prop :=
  (∀ a E p, env_at st a = Some E → parent E = Some p →
            p < a ∧ is_Some (env_at st p)) ∧
  (∀ a E n v, env_at st a = Some E → vars E !! n = Some v → callable st v).

(** The executors that run without undefined behaviour from such a store,
    in a live environment, and hand on such a store when they complete. *)
Definition runs_safely (exec : Statement → env_ptr → string → State → outcome Value) : Prop :=
  ∀ s e m st, no_dangling st → is_Some (env_at st e) →
    match exec s e m st with
    | Ok _ st' => no_dangling st'
    | Undefined => False
    | _ => True
    end.

(** A function that prints an unbound name, for the demonstrations of a
    failing invocation. *)
Definition failing_function : Function :=
  mkFunction "p" [ PRINT (VAR "y") ] (Some 0).

(** The statements [stmts] executed one after the other in [env], each in
    the store the one before left.  The outcome is that of the first
    statement that does not complete; when all complete, it is the value of
    the last one ([r] when there is none) with the store it left. *)
Inductive executes_in_order (fuel : nat) (env : env_ptr) (mode : string) :
    list Statement → Value → State → outcome Value → Prop :=
| in_order_done r st :
    executes_in_order fuel env mode [] r st (Ok r st)
| in_order_next s rest r st v st1 o :
    execute_stmt fuel s env mode st = Ok v st1 →
    executes_in_order fuel env mode rest v st1 o →
    executes_in_order fuel env mode (s :: rest) r st o
| in_order_stop s rest r st o :
    execute_stmt fuel s env mode st = o →
    (∀ v st1, o ≠ Ok v st1) →
    executes_in_order fuel env mode (s :: rest) r st o.

(** The end of an invocation in the environment [child]: [delete env] when
    the body completed, nothing when it did not. *)
Definition leaves (child : env_ptr) (o : outcome Value) : outcome Value :=
  match o with
  | Ok v st => Ok v (delete_Environment child st)
  | Throw x st => Throw x st
  | Undefined => Undefined
  | OutOfFuel => OutOfFuel
  end.

(** The store [st] with [x] as content of the cell [a]. *)
Definition with_cell (a : env_ptr) (x : option Environment) (st : State) : State :=
  mkState (<[a := x]> (envs st)) (funcs st) (out st).

(** The store of [example_child_store] where environment 1 binds [x] to
    20, as the invocation of [g] does. *)
Definition example_shadowed_store : State :=
  with_cell 1 (Some (mkEnvironment (<["x" := Value_int 20]> ∅) (Some 0))) example_child_store.

(** ** Running out of fuel is the only effect of the bound *)

Lemma refines_refl {A : Type} (o : outcome A) : refines o o.
Proof. by right. Qed.

Lemma refines_bind {A B : Type} (m1 m2 : outcome A) (k1 k2 : A → State → outcome B) :
  refines m1 m2 →
  (∀ a st, refines (k1 a st) (k2 a st)) →
  refines (bind m1 k1) (bind m2 k2).
Proof.
  intros [-> | ->] Hk; [by left|].
  destruct m2; simpl; auto using refines_refl.
Qed.

Lemma for_body_refines exec1 exec2 :
  (∀ s e m st, refines (exec1 s e m st) (exec2 s e m st)) →
  ∀ stmts env mode result st,
    refines (for_body exec1 stmts env mode result st)
            (for_body exec2 stmts env mode result st).
Proof.
  intros Hexec stmts env mode.
  induction stmts as [|s rest IH]; intros result st; simpl.
  - apply refines_refl.
  - apply refines_bind; auto.
Qed.

Lemma Function_call_refines exec1 exec2 :
  (∀ s e m st, refines (exec1 s e m st) (exec2 s e m st)) →
  ∀ f call_env mode st,
    refines (Function_call exec1 f call_env mode st)
            (Function_call exec2 f call_env mode st).
Proof.
  intros Hexec f call_env mode st. unfold Function_call.
  destruct (String.eqb mode "static"); simpl;
    (apply refines_bind; [by apply for_body_refines | intros; apply refines_refl]).
Qed.

(** The call statement, with [Function::call] named. *)
Lemma execute_stmt_CALL fuel n env mode st :
  execute_stmt (S fuel) (CALL n) env mode st =
    match Environment_get st env n with
    | Found fv =>
        match type fv with
        | FUNC =>
            match func_val fv with
            | Some fp =>
                match funcs st !! fp with
                | Some f => call fuel f env mode st
                | None => Undefined
                end
            | None => Undefined
            end
        | INT => Throw (NotAFunction n) st
        end
    | NotFound e => Throw e st
    | BadPointer => Undefined
    | Cyclic => OutOfFuel
    end.
Proof. reflexivity. Qed.

Lemma execute_stmt_S fuel :
  ∀ stmt env mode st,
    refines (execute_stmt fuel stmt env mode st)
            (execute_stmt (S fuel) stmt env mode st).
Proof.
  induction fuel as [|fuel IH]; intros stmt env mode st; [by left|].
  destruct stmt as [n e | e | n | n b]; try apply refines_refl.
  rewrite !execute_stmt_CALL.
  destruct (Environment_get st env n) as [fv| | |]; try apply refines_refl.
  destruct (type fv); try apply refines_refl.
  destruct (func_val fv) as [fp|]; try apply refines_refl.
  destruct (funcs st !! fp) as [f|]; try apply refines_refl.
  by apply Function_call_refines.
Qed.

Lemma execute_stmt_le fuel fuel' :
  fuel ≤ fuel' →
  ∀ stmt env mode st,
    refines (execute_stmt fuel stmt env mode st)
            (execute_stmt fuel' stmt env mode st).
Proof.
  induction 1 as [|fuel' _ IH]; intros stmt env mode st; [apply refines_refl|].
  destruct (IH stmt env mode st) as [H | H]; [by left|].
  rewrite H. apply execute_stmt_S.
Qed.

Lemma run_program_le fuel fuel' :
  fuel ≤ fuel' →
  ∀ program mode st,
    refines (run_program fuel program mode st) (run_program fuel' program mode st).
Proof.
  intros Hle program mode st. unfold run_program. simpl.
  apply refines_bind; [|intros; apply refines_refl].
  apply for_body_refines. by apply execute_stmt_le.
Qed.

Lemma run_and_call_g_le fuel fuel' :
  fuel ≤ fuel' →
  ∀ mode st,
    refines (run_and_call_g fuel mode st) (run_and_call_g fuel' mode st).
Proof.
  intros Hle mode st. unfold run_and_call_g.
  apply refines_bind; [by apply run_program_le|].
  intros env st1. apply refines_bind; [by apply execute_stmt_le|].
  intros; apply refines_refl.
Qed.

(** ** Lookups and their bound *)

Lemma env_at_Some st e E :
  env_at st e = Some E ↔ envs st !! e = Some (Some E).
Proof.
  unfold env_at. destruct (envs st !! e) as [[E'|]|]; simpl; split; congruence.
Qed.

Lemma env_at_lt st e E : env_at st e = Some E → e < length (envs st).
Proof. rewrite env_at_Some. apply lookup_lt_Some. Qed.

Lemma Environment_get_NotFound st e n x :
  Environment_get st e n = NotFound x → x = UnboundVariable n.
Proof.
  unfold Environment_get. generalize (S (length (envs st))). intros k.
  revert e. induction k as [|k IH]; intros e; cbn [get_rec]; [done|].
  destruct (envs st !! e) as [[E|]|]; try done.
  destruct (vars E !! n); [done|].
  destruct (parent E); [apply IH|]. congruence.
Qed.

Lemma Environment_get_local st e E n v :
  env_at st e = Some E → vars E !! n = Some v → Environment_get st e n = Found v.
Proof.
  intros He%env_at_Some Hn. unfold Environment_get. cbn [get_rec].
  by rewrite He, Hn.
Qed.

Lemma Environment_get_live st e n v :
  Environment_get st e n = Found v → e < length (envs st).
Proof.
  unfold Environment_get. cbn [get_rec].
  destruct (envs st !! e) as [c|] eqn:He; [|done].
  intros _. by eapply lookup_lt_Some.
Qed.

Lemma get_rec_step k h e n :
  get_rec (S k) h e n =
    match h !! e with
    | Some (Some E) =>
        match vars E !! n with
        | Some v => Found v
        | None =>
            match parent E with
            | Some p => get_rec k h p n
            | None => NotFound (UnboundVariable n)
            end
        end
    | _ => BadPointer
    end.
Proof. reflexivity. Qed.

Lemma get_rec_S h n : ∀ k e,
  get_rec k h e n ≠ Cyclic → get_rec (S k) h e n = get_rec k h e n.
Proof.
  induction k as [|k IH]; intros e Hk; [done|].
  cbn [get_rec] in Hk |- *.
  destruct (h !! e) as [[E|]|]; try done.
  destruct (vars E !! n); [done|].
  destruct (parent E) as [p|]; [|done].
  by apply IH.
Qed.

Lemma get_rec_le h n e k k' :
  k ≤ k' → get_rec k h e n ≠ Cyclic → get_rec k' h e n = get_rec k h e n.
Proof.
  induction 1 as [|k' _ IH]; intros Hk; [done|].
  rewrite get_rec_S; rewrite IH; done.
Qed.

Lemma Cyclic_dec (r : lookup_result) : {r = Cyclic} + {r ≠ Cyclic}.
Proof. destruct r; (by left) || (by right). Qed.

(** A lookup that needs [d] steps to a parent before it answers has visited
    [d] different live cells. *)
Lemma get_rec_visits h n : ∀ d e,
  get_rec d h e n = Cyclic → get_rec (S d) h e n ≠ Cyclic →
  ∃ l : list nat,
    length l = d ∧ NoDup l ∧
    ∀ x, x ∈ l → x < length h ∧ get_rec (S d) h x n ≠ Cyclic.
Proof.
  induction d as [|d IH]; intros e Hd HSd.
  - exists []. split; [done|]. split; [constructor|].
    intros x Hx. by apply elem_of_nil in Hx.
  - pose proof HSd as Hanswers. rewrite get_rec_step in Hd, HSd.
    destruct (h !! e) as [[E|]|] eqn:He; try done.
    destruct (vars E !! n) eqn:Hv; [done|].
    destruct (parent E) as [p|] eqn:Hp; [|done].
    destruct (IH p Hd HSd) as (l & Hlen & Hnd & Hl).
    exists (e :: l). split; [by rewrite <- Hlen|]. split.
    + constructor; [|done]. intros Hin. apply Hl in Hin as [_ Hin].
      apply Hin. by rewrite get_rec_step, He, Hv, Hp.
    + intros x [-> | Hx]%elem_of_cons.
      * split; [by eapply lookup_lt_Some|done].
      * apply Hl in Hx as [Hlt Hx]. split; [done|].
        by rewrite get_rec_S.
Qed.

Lemma NoDup_below (l : list nat) (b : nat) :
  NoDup l → (∀ x, x ∈ l → x < b) → length l ≤ b.
Proof.
  intros Hnd Hl.
  assert (Hsub : l ⊆+ seq 0 b).
  { apply NoDup_submseteq; [done|].
    intros x Hx. apply elem_of_seq. specialize (Hl x Hx). lia. }
  apply submseteq_length in Hsub. by rewrite length_seq in Hsub.
Qed.

(** A lookup that answers at all answers within the number of cells. *)
Lemma get_rec_answers h n : ∀ k e,
  get_rec k h e n ≠ Cyclic → get_rec (S (length h)) h e n ≠ Cyclic.
Proof.
  induction k as [|k IH]; intros e Hk; [done|].
  destruct (Cyclic_dec (get_rec k h e n)) as [Hcyc | Hans]; [|by eapply IH].
  destruct (get_rec_visits h n k e Hcyc Hk) as (l & Hlen & Hnd & Hl).
  assert (k ≤ length h) by (rewrite <- Hlen; apply NoDup_below; [done|]; by intros x [? _]%Hl).
  rewrite (get_rec_le h n e (S k)); [done|lia|done].
Qed.

Lemma get_rec_stable h n e k k' :
  length h < k → length h < k' → get_rec k h e n = get_rec k' h e n.
Proof.
  intros Hk Hk'.
  destruct (Cyclic_dec (get_rec (S (length h)) h e n)) as [Hcyc | Hans].
  - destruct (Cyclic_dec (get_rec k h e n)) as [-> | Hk1];
      [|by apply get_rec_answers in Hk1].
    destruct (Cyclic_dec (get_rec k' h e n)) as [-> | Hk2];
      [done|by apply get_rec_answers in Hk2].
  - rewrite (get_rec_le h n e (S (length h)) k), (get_rec_le h n e (S (length h)) k');
      done || lia.
Qed.

Lemma get_rec_ext h h' n :
  (∀ a, mjoin (h' !! a) = mjoin (h !! a)) →
  ∀ k e, get_rec k h' e n = get_rec k h e n.
Proof.
  intros Hext. induction k as [|k IH]; intros e; [done|].
  cbn [get_rec]. specialize (Hext e).
  destruct (h' !! e) as [[E'|]|], (h !! e) as [[E|]|]; cbn in Hext; try done.
  injection Hext as ->.
  destruct (vars E !! n); [done|]. destruct (parent E); [apply IH|done].
Qed.

(** Lookups see the live cells only, not how many cells were ever
    allocated. *)
Lemma Environment_get_ext st st' :
  (∀ a, env_at st' a = env_at st a) →
  ∀ e n, Environment_get st' e n = Environment_get st e n.
Proof.
  intros Hext e n. unfold Environment_get.
  destruct (decide (length (envs st) ≤ length (envs st'))) as [Hle | Hgt].
  - rewrite (get_rec_ext _ _ n Hext). apply get_rec_stable; lia.
  - rewrite <- (get_rec_ext _ _ n Hext). apply get_rec_stable; lia.
Qed.

(** A lookup that misses locally is the lookup in the parent, with the same
    bound: the parent's chain is shorter by the cell just left. *)
Lemma get_rec_parent h n e E p :
  h !! e = Some (Some E) → vars E !! n = None → parent E = Some p →
  get_rec (S (length h)) h e n = get_rec (S (length h)) h p n.
Proof.
  intros He Hn Hp.
  assert (Hstep : get_rec (S (length h)) h e n = get_rec (length h) h p n)
    by (cbn [get_rec]; by rewrite He, Hn, Hp).
  rewrite Hstep.
  destruct (Cyclic_dec (get_rec (length h) h p n)) as [Hcyc | Hans];
    [|by rewrite get_rec_S].
  destruct (Cyclic_dec (get_rec (S (length h)) h p n)) as [-> | Hans]; [done|].
  destruct (get_rec_visits h n (length h) p Hcyc Hans) as (l & Hlen & Hnd & Hl).
  assert (Hbound : length (e :: l) ≤ length h).
  { apply NoDup_below.
    - constructor; [|done]. intros [_ Hin]%Hl. apply Hin. by rewrite Hstep.
    - intros x [-> | [Hx _]%Hl]%elem_of_cons; [by eapply lookup_lt_Some|done]. }
  cbn in Hbound. lia.
Qed.

(** ** The store operations, one cell at a time *)

(** What an assignment does to the store, and what a lookup finds right
    after it. *)
Lemma Environment_set_live st e E n v :
  env_at st e = Some E →
  Environment_set e n v st =
    Ok tt (mkState (<[e := Some (mkEnvironment (<[n := v]> (vars E)) (parent E))]> (envs st))
                   (funcs st) (out st)).
Proof. intros He. unfold Environment_set. by rewrite He. Qed.

Lemma Environment_set_frame e n v st u st' :
  Environment_set e n v st = Ok u st' →
  (∀ a, a ≠ e → env_at st' a = env_at st a) ∧
  funcs st' = funcs st ∧ out st' = out st.
Proof.
  unfold Environment_set. destruct (env_at st e) as [E|] eqn:He; [|done].
  intros [= <- <-]. repeat split.
  intros a Ha. unfold env_at. cbn. by rewrite list_lookup_insert_ne.
Qed.

Lemma execute_expr_store expr env mode st v st' :
  execute_expr expr env mode st = Ok v st' → st' = st.
Proof.
  destruct expr as [z|x]; cbn [execute_expr]; [congruence|].
  destruct (Environment_get st env x); congruence.
Qed.

Lemma new_Environment_frame p st a :
  a ≠ length (envs st) → env_at (new_Environment p st).2 a = env_at st a.
Proof.
  intros Ha. unfold env_at. cbn.
  destruct (decide (a < length (envs st))) as [Hlt | Hge].
  - by rewrite lookup_app_l.
  - rewrite !lookup_ge_None_2; [done|lia|]. rewrite length_app. simpl. lia.
Qed.

Lemma delete_Environment_gone e st : env_at (delete_Environment e st) e = None.
Proof.
  unfold env_at. cbn.
  destruct (decide (e < length (envs st))) as [Hlt | Hge].
  - by rewrite list_lookup_insert_eq.
  - rewrite lookup_ge_None_2; [done|]. rewrite length_insert. lia.
Qed.

Lemma delete_Environment_frame e st a :
  a ≠ e → env_at (delete_Environment e st) a = env_at st a.
Proof. intros Ha. unfold env_at. cbn. by rewrite list_lookup_insert_ne. Qed.

(** ** The executors *)

(** The store right after [new Environment(p)], and the body run in the new
    environment followed by its [delete]: the two halves of
    [Function::call]. *)
Lemma Function_call_unfold exec f call_env mode st :
  Function_call exec f call_env mode st =
    let p := if String.eqb mode "static" then definition_env f else Some call_env in
    let* (result, st2) :=
      for_body exec (body f) (length (envs st)) mode Value_default
        (new_Environment p st).2 in
    Ok result (delete_Environment (length (envs st)) st2).
Proof. unfold Function_call. by destruct (String.eqb mode "static"). Qed.

Lemma for_body_app exec l1 l2 env mode : ∀ result st,
  for_body exec (l1 ++ l2) env mode result st =
    let* (r1, st1) := for_body exec l1 env mode result st in
    for_body exec l2 env mode r1 st1.
Proof.
  induction l1 as [|s l1 IH]; intros result st; [done|].
  cbn [for_body app]. destruct (exec s env mode st); cbn [bind]; auto.
Qed.


Lemma UnboundVariable_not_NotAFunction n m : UnboundVariable n ≠ NotAFunction m.
Proof. unfold UnboundVariable, NotAFunction. cbn. discriminate. Qed.

Lemma for_body_frame exec :
  writes_own_env exec →
  ∀ stmts e m result st v st',
    for_body exec stmts e m result st = Ok v st' →
    ∀ a, a ≠ e → env_at st' a = env_at st a.
Proof.
  intros Hexec stmts e m. induction stmts as [|s rest IH]; intros result st v st'.
  - by intros [= _ <-].
  - cbn [for_body]. destruct (exec s e m st) as [r st1| | |] eqn:Hs; try done.
    cbn [bind]. intros Hrest a Ha.
    rewrite (IH _ _ _ _ Hrest a Ha). by eapply Hexec.
Qed.

Lemma Function_call_frame exec :
  writes_own_env exec →
  ∀ f call_env m st v st',
    Function_call exec f call_env m st = Ok v st' →
    ∀ a, env_at st' a = env_at st a.
Proof.
  intros Hexec f call_env m st v st'. rewrite Function_call_unfold. cbn zeta.
  destruct (for_body exec (body f) _ m Value_default _) as [r st2| | |] eqn:Hbody;
    try done.
  cbn [bind]. intros [= _ <-] a.
  destruct (decide (a = length (envs st))) as [-> | Ha].
  - rewrite delete_Environment_gone. unfold env_at. by rewrite lookup_ge_None_2.
  - rewrite delete_Environment_frame by done.
    rewrite (for_body_frame exec Hexec _ _ _ _ _ _ _ Hbody a Ha).
    by apply new_Environment_frame.
Qed.

Lemma execute_stmt_frame fuel : writes_own_env (execute_stmt fuel).
Proof.
  induction fuel as [|fuel IH]; intros s e m st v st'; [done|].
  destruct s as [n x | x | n | n b]; cbn [execute_stmt].
  - destruct (execute_expr x e m st) as [r st1| | |] eqn:Hx; try done.
    apply execute_expr_store in Hx as ->. cbn [bind].
    destruct (Environment_set e n r st) as [u st2| | |] eqn:Hset; try done.
    cbn [bind]. intros [= _ <-]. by apply Environment_set_frame in Hset as [? _].
  - destruct (execute_expr x e m st) as [r st1| | |] eqn:Hx; try done.
    apply execute_expr_store in Hx as ->. cbn [bind]. by intros [= _ <-].
  - destruct (Environment_get st e n) as [fv| | |]; try done.
    destruct (type fv); try done.
    destruct (func_val fv) as [fp|]; try done.
    destruct (funcs st !! fp) as [f|]; try done.
    intros Hcall a _. by eapply Function_call_frame.
  - cbn [new_Function].
    destruct (Environment_set e n _ _) as [u st2| | |] eqn:Hset; try done.
    cbn [bind]. intros [= _ <-]. by apply Environment_set_frame in Hset as [? _].
Qed.

(** ** The stores the interpreter builds *)

Lemma store_ok_empty : store_ok empty_State.
Proof.
  split.
  - intros a E p H. unfold env_at in H. cbn [envs empty_State] in H.
    by rewrite lookup_nil in H.
  - intros fp f d H. cbn [funcs empty_State] in H. by rewrite lookup_nil in H.
Qed.

Lemma ends_ok_bind {A B : Type} st (m : outcome A) (k : A → State → outcome B) :
  ends_ok st m →
  (∀ a st1, store_ok st1 → length (envs st) ≤ length (envs st1) →
            ends_ok st (k a st1)) →
  ends_ok st (bind m k).
Proof. destruct m; cbn; intros H Hk; try done. destruct H. by apply Hk. Qed.

Lemma ends_ok_mono {A : Type} st st1 (o : outcome A) :
  length (envs st) ≤ length (envs st1) → ends_ok st1 o → ends_ok st o.
Proof. destruct o; cbn; try done; intros ? [? ?]; split; (done || lia). Qed.

Lemma Environment_set_ok e n v st :
  store_ok st → ends_ok st (Environment_set e n v st).
Proof.
  intros [Hp Hf]. unfold Environment_set.
  destruct (env_at st e) as [E|] eqn:He; [|done].
  pose proof (env_at_lt _ _ _ He) as Hlt. cbn [ends_ok envs].
  rewrite length_insert. split; [|done].
  split; [|by cbn [funcs envs]; rewrite length_insert].
  intros a E' p. unfold env_at. cbn [envs].
  destruct (decide (a = e)) as [-> | Ha].
  - rewrite list_lookup_insert_eq by done. cbn. intros [= <-]. cbn. by apply Hp.
  - rewrite list_lookup_insert_ne by done. apply Hp.
Qed.

Lemma new_Environment_ok p st :
  store_ok st → (∀ d, p = Some d → d < length (envs st)) →
  store_ok (new_Environment p st).2.
Proof.
  intros [Hp Hf] Hd. split.
  - intros a E q. unfold env_at. cbn.
    destruct (decide (a < length (envs st))) as [Hlt | Hge].
    + rewrite lookup_app_l by done. apply Hp.
    + destruct (decide (a = length (envs st))) as [-> | Ha].
      * rewrite lookup_app_r, Nat.sub_diag by done. cbn. intros [= <-]. apply Hd.
      * rewrite lookup_ge_None_2; [done|]. rewrite length_app. cbn. lia.
  - intros fp f d Hfp Hdef. cbn. rewrite length_app. cbn.
    specialize (Hf fp f d Hfp Hdef). lia.
Qed.

Lemma delete_Environment_ok e st : store_ok st → store_ok (delete_Environment e st).
Proof.
  intros [Hp Hf]. split.
  - intros a E p. destruct (decide (a = e)) as [-> | Ha].
    + by rewrite delete_Environment_gone.
    + rewrite delete_Environment_frame by done. apply Hp.
  - intros fp f d. cbn. rewrite length_insert. apply Hf.
Qed.

Lemma new_Function_ok n b e st :
  store_ok st → e < length (envs st) →
  store_ok (new_Function (mkFunction n b (Some e)) st).2.
Proof.
  intros [Hp Hf] He. split; [exact Hp|].
  intros fp f d. cbn. intros [[_ Hfp] | [_ <-]]%lookup_snoc_Some; [by apply (Hf fp f d)|].
  cbn. by intros [= <-].
Qed.

Section executors.
Variable exec : Statement → env_ptr → string → State → outcome Value.
Hypothesis exec_ok : ∀ s e m st, store_ok st → ends_ok st (exec s e m st).

Lemma for_body_ok stmts e m : ∀ result st,
  store_ok st → ends_ok st (for_body exec stmts e m result st).
Proof.
  induction stmts as [|s rest IH]; intros result st Hst; [by split|].
  cbn [for_body]. apply ends_ok_bind; [by apply exec_ok|].
  intros r st1 Hst1 Hlen. eapply ends_ok_mono; [exact Hlen|by apply IH].
Qed.

Lemma Function_call_ok f call_env m st :
  store_ok st →
  (∀ d, definition_env f = Some d → d < length (envs st)) →
  call_env < length (envs st) →
  ends_ok st (Function_call exec f call_env m st).
Proof.
  intros Hst Hdef Hcall. rewrite Function_call_unfold. cbn zeta.
  set (p := if String.eqb m "static" then definition_env f else Some call_env).
  assert (Hp : ∀ d, p = Some d → d < length (envs st)).
  { subst p. destruct (String.eqb m "static"); [done|]. by intros d [= <-]. }
  assert (Hgrow : length (envs st) ≤ length (envs (new_Environment p st).2))
    by (cbn; rewrite length_app; lia).
  eapply ends_ok_mono; [exact Hgrow|].
  apply ends_ok_bind; [by apply for_body_ok, new_Environment_ok|].
  intros r st2 Hst2 Hlen. cbn. rewrite length_insert.
  split; [by apply delete_Environment_ok|done].
Qed.
End executors.

(** Every statement, whether it completes or fails, takes a store of this
    shape to another one; so do [run_program] and every invocation it
    makes, starting from the empty store. *)
Lemma execute_stmt_ok fuel : ∀ s e m st,
  store_ok st → ends_ok st (execute_stmt fuel s e m st).
Proof.
  induction fuel as [|fuel IH]; intros s e m st Hst; [done|].
  destruct s as [n x | x | n | n b]; cbn [execute_stmt].
  - destruct (execute_expr x e m st) as [r st1| | |] eqn:Hx; try done.
    + apply execute_expr_store in Hx as ->. cbn [bind].
      apply ends_ok_bind; [by apply Environment_set_ok|]. by intros; split.
    + destruct x as [z|y]; cbn [execute_expr] in Hx; [done|].
      destruct (Environment_get st e y); try done. by injection Hx as _ <-.
  - destruct (execute_expr x e m st) as [r st1| | |] eqn:Hx; try done.
    + apply execute_expr_store in Hx as ->. cbn. by destruct Hst.
    + destruct x as [z|y]; cbn [execute_expr] in Hx; [done|].
      destruct (Environment_get st e y); try done. by injection Hx as _ <-.
  - destruct (Environment_get st e n) as [fv| | |] eqn:Hget; try done.
    destruct (type fv); [done|].
    destruct (func_val fv) as [fp|]; [|done].
    destruct (funcs st !! fp) as [f|] eqn:Hf; [|done].
    apply Function_call_ok; [done|done| |].
    + intros d. by apply (proj2 Hst fp f d).
    + by eapply Environment_get_live.
  - cbn [new_Function].
    set (st1 := mkState (envs st) _ (out st)).
    destruct (env_at st1 e) as [E|] eqn:He;
      [|unfold Environment_set; by rewrite He].
    pose proof (env_at_lt _ _ _ He) as Hlt.
    assert (Hst1 : store_ok st1) by (by apply (new_Function_ok n b e st)).
    apply ends_ok_bind; [by apply (Environment_set_ok e n _ st1)|].
    by intros; split.
Qed.

Lemma run_program_ok fuel program mode :
  ends_ok empty_State (run_program fuel program mode empty_State).
Proof.
  unfold run_program.
  set (st1 := (new_Environment None empty_State).2).
  change (ends_ok empty_State
    (let* (_, st2) := for_body (execute_stmt fuel) program 0 mode Value_default st1 in
     Ok 0 st2)).
  apply ends_ok_bind; [|by intros; split].
  eapply (ends_ok_mono _ st1); [cbn; lia|].
  apply for_body_ok; [apply execute_stmt_ok|].
  apply new_Environment_ok; [apply store_ok_empty|done].
Qed.

(** In such a store a chain has no cycle: every lookup answers. *)
Lemma Environment_get_terminates st e n :
  store_ok st → Environment_get st e n ≠ Cyclic.
Proof.
  intros [Hp _]. unfold Environment_get.
  assert (H : ∀ k e, e < k → get_rec k (envs st) e n ≠ Cyclic).
  { induction k as [|k IH]; intros a Ha; [lia|]. cbn [get_rec].
    destruct (envs st !! a) as [[E|]|] eqn:HE; try done.
    destruct (vars E !! n); [done|].
    destruct (parent E) as [p|] eqn:HpE; [|done].
    apply IH. apply env_at_Some in HE. specialize (Hp a E p HE HpE). lia. }
  destruct (decide (e < S (length (envs st)))) as [Hlt | Hge]; [by apply H|].
  cbn [get_rec]. rewrite lookup_ge_None_2; [done|lia].
Qed.

(** ** The canonical example *)

(** C1 (static-scoping property). The example program run in a new global
    environment and followed by [call g], in mode "static", completes for
    every call depth bound of at least 3 and writes exactly one line, the
    integer 10; the global [x] is 10 at the end as well. *)
Theorem static_run_prints_10 (fuel : nat) :
  3 ≤ fuel →
  ∃ env st,
    run_and_call_g fuel "static" empty_State = Ok env st ∧
    out st = [print_int (Init 10)] ∧
    Environment_get st env "x" = Found (Value_int 10).
Proof.
  intros Hle.
  destruct (run_and_call_g_le 3 fuel Hle "static" empty_State) as [H | H].
  - vm_compute in H. discriminate H.
  - rewrite <- H. eexists _, _. split; [vm_compute; reflexivity|].
    split; vm_compute; reflexivity.
Qed.

Lemma static_run_prints_10_witness :
  ∃ env st,
    run_and_call_g 4 "static" empty_State = Ok env st ∧
    out st = [print_int (Init 10)] ∧
    Environment_get st env "x" = Found (Value_int 10).
Proof. apply (static_run_prints_10 4). lia. Defined.

(** C2 (dynamic-scoping property). The same program, in a new global
    environment of its own and followed by [call g], in mode "dynamic",
    completes for every call depth bound of at least 3 and writes exactly
    one line, the integer 20; the global [x] is still 10. *)
Theorem dynamic_run_prints_20 (fuel : nat) :
  3 ≤ fuel →
  ∃ env st,
    run_and_call_g fuel "dynamic" empty_State = Ok env st ∧
    out st = [print_int (Init 20)] ∧
    Environment_get st env "x" = Found (Value_int 10).
Proof.
  intros Hle.
  destruct (run_and_call_g_le 3 fuel Hle "dynamic" empty_State) as [H | H].
  - vm_compute in H. discriminate H.
  - rewrite <- H. eexists _, _. split; [vm_compute; reflexivity|].
    split; vm_compute; reflexivity.
Qed.

Lemma dynamic_run_prints_20_witness :
  ∃ env st,
    run_and_call_g 4 "dynamic" empty_State = Ok env st ∧
    out st = [print_int (Init 20)] ∧
    Environment_get st env "x" = Found (Value_int 10).
Proof. apply (dynamic_run_prints_20 4). lia. Defined.

(** [main] as a whole: the two runs, each in a global environment of its
    own, and both environments deleted at the end. *)
Lemma main_output :
  ∃ st, main 3 empty_State = Ok 0%Z st ∧
        out st = [ print_line "Static Scoping Output:"; print_int (Init 10);
                   print_line (newline +:+ "Dynamic Scoping Output:"); print_int (Init 20) ] ∧
        ∀ a, env_at st a = None.
Proof.
  eexists. split; [vm_compute; reflexivity|]. split; [vm_compute; reflexivity|].
  intros a. do 6 (destruct a as [|a]; [reflexivity|]). reflexivity.
Qed.

(** ** The scoping decision *)

Lemma executes_in_order_for_body fuel env mode : ∀ stmts r st o,
  executes_in_order fuel env mode stmts r st o ↔
  for_body (execute_stmt fuel) stmts env mode r st = o.
Proof.
  intros stmts r st o. split.
  - induction 1 as [r st | s rest r st v st1 o Hs _ IH | s rest r st o Hs Hno].
    + done.
    + cbn [for_body]. by rewrite Hs.
    + cbn [for_body]. rewrite Hs. destruct o; try done. by destruct (Hno a st0).
  - revert r st. induction stmts as [|s rest IH]; intros r st.
    + intros <-. constructor.
    + cbn [for_body].
      destruct (execute_stmt fuel s env mode st) as [v st1| | |] eqn:Hs; cbn [bind].
      * intros Hrest. eapply in_order_next; [exact Hs|by apply IH].
      * intros <-. by apply in_order_stop.
      * intros <-. by apply in_order_stop.
      * intros <-. by apply in_order_stop.
Qed.

Lemma Function_call_in_order fuel f call_env mode st o :
  call fuel f call_env mode st = o ↔
  ∃ o', executes_in_order fuel (length (envs st)) mode (body f) Value_default
          (new_Environment
             (if String.eqb mode "static" then definition_env f else Some call_env) st).2 o' ∧
        o = leaves (length (envs st)) o'.
Proof.
  unfold call. rewrite Function_call_unfold. cbn zeta.
  set (st1 := (new_Environment _ st).2).
  assert (Hleave : ∀ o', (let* (result, st2) := o' in
                          Ok result (delete_Environment (length (envs st)) st2))
                         = leaves (length (envs st)) o') by (by intros []).
  rewrite Hleave. split.
  - intros <-. eexists. split; [by apply executes_in_order_for_body|done].
  - intros (o' & Hrun%executes_in_order_for_body & ->). by rewrite Hrun.
Qed.

(** C3 (the scoping decision). An invocation allocates an environment that
    did not exist before, with no binding, whose parent is the function's
    definition environment in mode "static" and the call-site environment
    in mode "dynamic", and changes nothing else on the way in.  Its outcome
    is that of the statements of the body executed in order in that
    environment, from the default result, the environment being deleted
    when they all completed.  The mode is consulted nowhere else: a
    statement other than a call does the same in every mode. *)
Theorem call_chooses_parent (fuel : nat) (f : Function) (call_env : env_ptr) (st : State) :
  let child := length (envs st) in
  let enter := fun p => (new_Environment p st).2 in
  env_at st child = None ∧
  (∀ p, env_at (enter p) child = Some (mkEnvironment ∅ p) ∧
        (∀ a, a ≠ child → env_at (enter p) a = env_at st a) ∧
        funcs (enter p) = funcs st ∧ out (enter p) = out st) ∧
  (∀ o, call fuel f call_env "static" st = o ↔
        ∃ o', executes_in_order fuel child "static" (body f) Value_default
                (enter (definition_env f)) o' ∧
              o = leaves child o') ∧
  (∀ o, call fuel f call_env "dynamic" st = o ↔
        ∃ o', executes_in_order fuel child "dynamic" (body f) Value_default
                (enter (Some call_env)) o' ∧
              o = leaves child o') ∧
  (∀ stmt env mode1 mode2 st0,
     is_call stmt = false →
     execute_stmt fuel stmt env mode1 st0 = execute_stmt fuel stmt env mode2 st0).
Proof.
  intros child enter. subst child enter. split; [|split; [|split; [|split]]].
  - unfold env_at. by rewrite lookup_ge_None_2.
  - intros p. split; [|split; [|done]].
    + unfold env_at. cbn. by rewrite lookup_app_r, Nat.sub_diag.
    + intros a Ha. unfold env_at. cbn.
      destruct (decide (a < length (envs st))) as [Hlt | Hge].
      * by rewrite lookup_app_l.
      * rewrite !lookup_ge_None_2; [done|lia|].
        rewrite length_app. simpl. lia.
  - intros o. apply (Function_call_in_order fuel f call_env "static" st o).
  - intros o. apply (Function_call_in_order fuel f call_env "dynamic" st o).
  - intros stmt env mode1 mode2 st0 Hcall.
    destruct fuel as [|fuel]; [done|].
    destruct stmt as [n e | e | n | n b]; try done; destruct e; done.
Qed.

Lemma call_chooses_parent_witness :
  (∃ st', call 2 (mkFunction "g" [ASSIGN "x" (INT_LIT 20); CALL "f"] (Some 0)) 0 "static"
            (example_store "static") = Ok (Value_int 10) st' ∧
          out st' = [print_int (Init 10)]) ∧
  (∃ st', call 2 (mkFunction "g" [ASSIGN "x" (INT_LIT 20); CALL "f"] (Some 0)) 0 "dynamic"
            (example_store "dynamic") = Ok (Value_int 20) st' ∧
          out st' = [print_int (Init 20)]).
Proof.
  split.
  - destruct (call_chooses_parent 2
                (mkFunction "g" [ASSIGN "x" (INT_LIT 20); CALL "f"] (Some 0)) 0
                (example_store "static")) as (_ & _ & Hstatic & _ & _).
    eexists. split.
    + apply Hstatic. eexists. split.
      * eapply in_order_next; [vm_compute; reflexivity|].
        eapply in_order_next; [vm_compute; reflexivity|].
        apply in_order_done.
      * reflexivity.
    + vm_compute. reflexivity.
  - destruct (call_chooses_parent 2
                (mkFunction "g" [ASSIGN "x" (INT_LIT 20); CALL "f"] (Some 0)) 0
                (example_store "dynamic")) as (_ & _ & _ & Hdynamic & _).
    eexists. split.
    + apply Hdynamic. eexists. split.
      * eapply in_order_next; [vm_compute; reflexivity|].
        eapply in_order_next; [vm_compute; reflexivity|].
        apply in_order_done.
      * reflexivity.
    + vm_compute. reflexivity.
Defined.

(** ** Environments: assignment and lookup *)

(** C4 (local-shadow invariant). On a live environment [e], [set(n, v)]
    succeeds and afterwards [get(n)] on [e] is [v], whatever the ancestors
    bind; the assignment changes the local mapping of [e] alone, by
    inserting or overwriting [n]: every other environment, the parent
    pointer of [e], the functions and the output are as before. *)
Theorem set_then_get (st : State) (e : env_ptr) (E : Environment) (n : string) (v : Value) :
  env_at st e = Some E →
  ∃ st',
    Environment_set e n v st = Ok tt st' ∧
    Environment_get st' e n = Found v ∧
    env_at st' e = Some (mkEnvironment (<[n := v]> (vars E)) (parent E)) ∧
    (∀ a, a ≠ e → env_at st' a = env_at st a) ∧
    funcs st' = funcs st ∧ out st' = out st.
Proof.
  intros He. pose proof (env_at_lt _ _ _ He) as Hlt.
  eexists. split; [by apply Environment_set_live|].
  assert (Hcell : ∀ E', env_at (mkState (<[e := Some E']> (envs st)) (funcs st) (out st)) e
                        = Some E').
  { intros E'. unfold env_at. cbn [envs]. by rewrite list_lookup_insert_eq. }
  split; [|split; [|split]].
  - eapply Environment_get_local; [apply Hcell|]. cbn [vars]. apply lookup_insert_eq.
  - apply Hcell.
  - intros a Ha. unfold env_at. cbn [envs]. by rewrite list_lookup_insert_ne.
  - done.
Qed.

Lemma set_then_get_witness :
  ∃ st',
    Environment_set 1 "x" (Value_int 20) example_child_store = Ok tt st' ∧
    Environment_get st' 1 "x" = Found (Value_int 20) ∧
    Environment_get st' 0 "x" = Found (Value_int 10).
Proof.
  destruct (set_then_get example_child_store 1 (mkEnvironment ∅ (Some 0)) "x" (Value_int 20))
    as (st' & Hset & Hget & _ & Hothers & _).
  - vm_compute. reflexivity.
  - exists st'. split; [exact Hset|]. split; [exact Hget|].
    injection Hset as <-. vm_compute. reflexivity.
Defined.

(** C5 (chain delegation and unbound failure). A live environment [e]
    without local binding for [n] answers [get(n)] with the answer of its
    parent when it has one, and with the failure [UnboundVariable n] when it
    has none; and a variable reference to a name bound nowhere along the
    chain of [e'] fails with [UnboundVariable n], leaving the store as it
    is. *)
Theorem get_delegates_to_parent (st : State) (e : env_ptr) (E : Environment) (n : string) :
  env_at st e = Some E →
  vars E !! n = None →
  (∀ p, parent E = Some p → Environment_get st e n = Environment_get st p n) ∧
  (parent E = None → Environment_get st e n = NotFound (UnboundVariable n)) ∧
  (∀ e' mode, unbound_along st n e' →
     execute_expr (VAR n) e' mode st = Throw (UnboundVariable n) st).
Proof.
  intros He Hn. apply env_at_Some in He.
  split; [|split].
  - intros p Hp. by apply (get_rec_parent (envs st) n e E p).
  - intros Hp. unfold Environment_get. cbn [get_rec]. by rewrite He, Hn, Hp.
  - intros e' mode Hun.
    assert (Hget : Environment_get st e' n = NotFound (UnboundVariable n)).
    { clear E He Hn e.
      induction Hun as [e E He Hn Hp | e E p He Hn Hp Hun IH];
        apply env_at_Some in He.
      - unfold Environment_get. cbn [get_rec]. by rewrite He, Hn, Hp.
      - rewrite <- IH. by apply (get_rec_parent (envs st) n e E p). }
    cbn [execute_expr]. by rewrite Hget.
Qed.

Lemma get_delegates_to_parent_witness :
  Environment_get example_child_store 1 "x" = Environment_get example_child_store 0 "x" ∧
  execute_expr (VAR "y") 1 "static" example_child_store
    = Throw (UnboundVariable "y") example_child_store.
Proof.
  destruct (get_delegates_to_parent example_child_store 1 (mkEnvironment ∅ (Some 0)) "x")
    as (Hparent & _ & _); [vm_compute; reflexivity..|].
  destruct (get_delegates_to_parent example_child_store 1 (mkEnvironment ∅ (Some 0)) "y")
    as (_ & _ & Hunbound); [vm_compute; reflexivity..|].
  split; [exact (Hparent 0 eq_refl)|].
  apply Hunbound.
  eapply unbound_step; [vm_compute; reflexivity..|].
  eapply unbound_root; vm_compute; reflexivity.
Defined.

(** ** The call statement *)

(** C6 as stated fails: in [shadowing_store] the name "f" resolves to a
    function, and yet [call f] fails with [NotAFunction "f"], raised by the
    call statement inside the body and passed on by the invocation. *)
Lemma call_fails_only_on_non_function_counterexample :
  ¬ ((∃ st', execute_stmt 2 (CALL "f") 0 "static" shadowing_store
             = Throw (NotAFunction "f") st') ↔
     (∃ v, Environment_get shadowing_store 0 "f" = Found v ∧ type v ≠ FUNC)).
Proof.
  intros [Hfail _].
  destruct Hfail as (v & Hget & Hty).
  - eexists. vm_compute. reflexivity.
  - vm_compute in Hget. injection Hget as <-. by apply Hty.
Qed.

(** C6, amended. A call statement whose name resolves to a value that is
    not a function fails with [NotAFunction] of that name and leaves the
    store alone.  When the name resolves to a function, the statement is the
    invocation of that function with the current environment as call site:
    the invocation's result is returned and a failure of the invocation is
    passed on unchanged.  Hence a call statement fails with [NotAFunction]
    of its own name exactly when the name resolves to a non-function or the
    invocation of the function it resolves to fails so. *)
Theorem call_statement_outcome (fuel : nat) (n : string) (env : env_ptr) (mode : string) (st : State) :
  (∀ v, Environment_get st env n = Found v → type v ≠ FUNC →
        execute_stmt (S fuel) (CALL n) env mode st = Throw (NotAFunction n) st) ∧
  (∀ v fp f, Environment_get st env n = Found v → type v = FUNC →
             func_val v = Some fp → funcs st !! fp = Some f →
             execute_stmt (S fuel) (CALL n) env mode st = call fuel f env mode st) ∧
  (∀ st', execute_stmt (S fuel) (CALL n) env mode st = Throw (NotAFunction n) st' ↔
          (∃ v, Environment_get st env n = Found v ∧ type v ≠ FUNC ∧ st' = st) ∨
          (∃ v fp f, Environment_get st env n = Found v ∧ type v = FUNC ∧
                     func_val v = Some fp ∧ funcs st !! fp = Some f ∧
                     call fuel f env mode st = Throw (NotAFunction n) st')).
Proof.
  rewrite execute_stmt_CALL. split; [|split].
  - intros v -> Hty. by destruct (type v).
  - by intros v fp f -> -> -> ->.
  - intros st'. split.
    + destruct (Environment_get st env n) as [fv|x| |] eqn:Hget.
      * destruct (type fv) eqn:Hty.
        -- intros [= <-]. left. exists fv. repeat split; congruence.
        -- destruct (func_val fv) as [fp|] eqn:Hfp; [|done].
           destruct (funcs st !! fp) as [f|] eqn:Hf; [|done].
           intros Hcall. right. by exists fv, fp, f.
      * intros [= -> <-]. apply Environment_get_NotFound in Hget.
        symmetry in Hget. by apply UnboundVariable_not_NotAFunction in Hget.
      * done.
      * done.
    + intros [(v & -> & Hty & ->) | (v & fp & f & -> & -> & -> & -> & Hcall)];
        [by destruct (type v)|done].
Qed.

Lemma call_statement_outcome_witness :
  execute_stmt 1 (CALL "x") 0 "static" (example_store "static")
    = Throw (NotAFunction "x") (example_store "static") ∧
  execute_stmt 3 (CALL "g") 0 "static" (example_store "static")
    = call 2 (mkFunction "g" [ASSIGN "x" (INT_LIT 20); CALL "f"] (Some 0)) 0 "static"
        (example_store "static").
Proof.
  split.
  - destruct (call_statement_outcome 0 "x" 0 "static" (example_store "static"))
      as (Hint & _ & _).
    apply (Hint (Value_int 10)); [vm_compute; reflexivity | discriminate].
  - destruct (call_statement_outcome 2 "g" 0 "static" (example_store "static"))
      as (_ & Hfunc & _).
    apply (Hfunc (Value_func 1) 1); vm_compute; reflexivity.
Defined.

(** ** The value of an invocation *)

(** C7 (result of an invocation). An invocation of a function with an empty
    body completes and returns the default value, the integer 0.  When an
    invocation of a function with a non-empty body completes, the statements
    before the last one completed in the invocation's environment and the
    value returned is the value of the last statement, executed after
    them. *)
Theorem call_returns_last_value (fuel : nat) (f : Function) (call_env : env_ptr)
    (mode : string) (st : State) :
  let child := length (envs st) in
  let p := if String.eqb mode "static" then definition_env f else Some call_env in
  (body f = [] →
   call fuel f call_env mode st =
     Ok Value_default (delete_Environment child (new_Environment p st).2) ∧
   Value_default = Value_int 0) ∧
  (∀ (init : list Statement) (last : Statement) v st',
     body f = (init ++ [last])%list →
     call fuel f call_env mode st = Ok v st' →
     ∃ r st1 st2,
       for_body (execute_stmt fuel) init child mode Value_default
         (new_Environment p st).2 = Ok r st1 ∧
       execute_stmt fuel last child mode st1 = Ok v st2 ∧
       st' = delete_Environment child st2).
Proof.
  intros child p. subst child p. unfold call. rewrite Function_call_unfold.
  cbn zeta. split.
  - by intros ->.
  - intros init last v st' ->. rewrite for_body_app.
    destruct (for_body (execute_stmt fuel) init _ mode Value_default _)
      as [r st1| | |] eqn:Hinit; cbn [bind]; try done.
    cbn [for_body].
    destruct (execute_stmt fuel last _ mode st1) as [v' st2| | |] eqn:Hlast;
      cbn [bind for_body]; try done.
    intros [= -> <-]. by exists r, st1, st2.
Qed.

Lemma call_returns_last_value_witness :
  call 0 (mkFunction "stop" [] (Some 0)) 0 "dynamic" (example_store "dynamic")
    = Ok Value_default
        (delete_Environment 1 (new_Environment (Some 0) (example_store "dynamic")).2) ∧
  ∃ r st1 st2,
    for_body (execute_stmt 2) [ASSIGN "x" (INT_LIT 20)] 1 "dynamic" Value_default
      (new_Environment (Some 0) (example_store "dynamic")).2 = Ok r st1 ∧
    execute_stmt 2 (CALL "f") 1 "dynamic" st1 = Ok (Value_int 20) st2.
Proof.
  split.
  - by apply (call_returns_last_value 0 (mkFunction "stop" [] (Some 0)) 0 "dynamic"
                (example_store "dynamic")).
  - destruct (call_returns_last_value 2
                (mkFunction "g" [ASSIGN "x" (INT_LIT 20); CALL "f"] (Some 0))
                0 "dynamic" (example_store "dynamic")) as (_ & Hlast).
    destruct (Hlast [ASSIGN "x" (INT_LIT 20)] (CALL "f") (Value_int 20)
                (mkState [env_at (example_store "dynamic") 0; None; None]
                   (funcs (example_store "dynamic")) [print_int (Init 20)]))
      as (r & st1 & st2 & Hinit & Hcall & _); [reflexivity | vm_compute; reflexivity|].
    by exists r, st1, st2.
Defined.

(** ** What an invocation leaves behind *)

(** C8 as stated fails for an invocation nested in another invocation of
    the same function in mode "dynamic".  In [nested_store] the global [x]
    is 0.  The invocation of [f] from the global environment runs in
    environment 1 and, by the time it reaches its last statement, has bound
    [x] to 7 there and resolves [t] to [f] itself.  That last statement
    invokes [f] again, in environment 2 with parent 1, and the lookup of [x]
    by the second invocation finds the 7 of the first, which it prints. *)
Lemma invocation_isolation_counterexample :
  ∃ f init r st1 E1 v st2,
    funcs nested_store !! 1 = Some f ∧
    body f = (init ++ [CALL "t"])%list ∧
    Environment_get nested_store 0 "x" = Found (Value_int 0) ∧
    for_body (execute_stmt 2) init 1 "dynamic" Value_default
      (new_Environment (Some 0) nested_store).2 = Ok r st1 ∧
    env_at st1 1 = Some E1 ∧ vars E1 !! "x" = Some (Value_int 7) ∧
    Environment_get st1 1 "t" = Found (Value_func 1) ∧
    funcs st1 !! 1 = Some f ∧
    Environment_get (new_Environment (Some 1) st1).2 2 "x" = Found (Value_int 7) ∧
    call 1 f 1 "dynamic" st1 = Ok v st2 ∧
    out st1 = [print_int (Init 0)] ∧
    out st2 = [print_int (Init 0); print_int (Init 7)].
Proof.
  eexists _, [_; _; _; _], _, _, _, _, _.
  split; [vm_compute; reflexivity|].
  split; [reflexivity|].
  split; [vm_compute; reflexivity|].
  split; [vm_compute; reflexivity|].
  split; [vm_compute; reflexivity|].
  split; [vm_compute; reflexivity|].
  split; [vm_compute; reflexivity|].
  split; [vm_compute; reflexivity|].
  split; [vm_compute; reflexivity|].
  split; [vm_compute; reflexivity|].
  split; vm_compute; reflexivity.
Qed.


(** ** Scoping modes other than the two *)



(** ** Printing *)

(** C10 (printing a function). A print statement whose expression
    evaluates completes, returns the value and adds exactly one line to the
    output, the [int_val] member of the value, whatever its tag; it changes
    nothing else.  The function-pointer constructor leaves that member
    without a value, so printing a name right after its definition
    completes and adds an indeterminate integer to the output, instead of
    failing. *)
Theorem print_emits_int_val (fuel : nat) :
  (∀ expr env mode st v st1,
     execute_expr expr env mode st = Ok v st1 →
     ∃ st', execute_stmt (S fuel) (PRINT expr) env mode st = Ok v st' ∧
            out st' = (out st ++ [print_int (int_val v)])%list ∧
            envs st' = envs st ∧ funcs st' = funcs st) ∧
  (∀ fp, type (Value_func fp) = FUNC ∧ int_val (Value_func fp) = Indeterminate) ∧
  (∀ n b env mode st v st1,
     execute_stmt (S fuel) (DEF n b) env mode st = Ok v st1 →
     type v = FUNC ∧
     ∃ st', execute_stmt (S fuel) (PRINT (VAR n)) env mode st1 = Ok v st' ∧
            out st' = (out st ++ [print_int Indeterminate])%list ∧
            envs st' = envs st1 ∧ funcs st' = funcs st1).
Proof.
  split; [|split].
  - intros expr env mode st v st1 Hexpr. cbn [execute_stmt]. rewrite Hexpr.
    apply execute_expr_store in Hexpr as ->. cbn [bind]. by eexists.
  - done.
  - intros n b env mode st v st1. cbn [execute_stmt new_Function].
    set (st0 := mkState (envs st) (funcs st ++ [mkFunction n b (Some env)]) (out st)).
    destruct (env_at st0 env) as [E|] eqn:He.
    + pose proof (env_at_lt _ _ _ He) as Hlt.
      rewrite (Environment_set_live st0 env E n _ He). cbn [bind].
      intros [= <- <-]. split; [done|]. cbn [execute_expr].
      rewrite (Environment_get_local _ env
                 (mkEnvironment (<[n := Value_func (length (funcs st))]> (vars E)) (parent E))
                 n (Value_func (length (funcs st)))).
      * cbn [bind]. by eexists.
      * unfold env_at. cbn [envs]. by rewrite list_lookup_insert_eq.
      * cbn [vars]. apply lookup_insert_eq.
    + unfold Environment_set. by rewrite He.
Qed.

Lemma print_emits_int_val_witness :
  ∃ st', execute_stmt 1 (PRINT (VAR "f")) 0 "static" (example_store "static")
           = Ok (Value_func 0) st' ∧
         out st' = [print_int Indeterminate].
Proof.
  destruct (print_emits_int_val 0) as (Hprint & _ & _).
  destruct (Hprint (VAR "f") 0 "static" (example_store "static") (Value_func 0)
              (example_store "static")) as (st' & Hrun & Hout & _);
    [vm_compute; reflexivity|].
  exists st'. split; [exact Hrun|]. rewrite Hout. vm_compute. reflexivity.
Defined.

(** * Further properties of the interpreter *)

(** ** Lookup finds the nearest binding *)

Lemma unbound_along_get st n e :
  unbound_along st n e → Environment_get st e n = NotFound (UnboundVariable n).
Proof.
  induction 1 as [e E He Hn Hp | e E p He Hn Hp Hun IH]; apply env_at_Some in He.
  - unfold Environment_get. by rewrite get_rec_step, He, Hn, Hp.
  - rewrite <- IH. by apply (get_rec_parent (envs st) n e E p).
Qed.

Lemma get_rec_Found_resolves st n : ∀ k e v,
  get_rec k (envs st) e n = Found v → resolves st n e v.
Proof.
  induction k as [|k IH]; intros e v; [done|]. rewrite get_rec_step.
  destruct (envs st !! e) as [[E|]|] eqn:He; try done.
  apply env_at_Some in He.
  destruct (vars E !! n) as [w|] eqn:Hn.
  - intros [= <-]. by eapply resolves_here.
  - destruct (parent E) as [p|] eqn:Hp; [|done].
    intros Hrec. eapply resolves_up; eauto.
Qed.

Lemma get_rec_NotFound_unbound st n : ∀ k e x,
  get_rec k (envs st) e n = NotFound x → unbound_along st n e.
Proof.
  induction k as [|k IH]; intros e x; [done|]. rewrite get_rec_step.
  destruct (envs st !! e) as [[E|]|] eqn:He; try done.
  apply env_at_Some in He.
  destruct (vars E !! n) as [w|] eqn:Hn; [done|].
  destruct (parent E) as [p|] eqn:Hp.
  - intros Hrec. eapply unbound_step; eauto.
  - intros _. by eapply unbound_root.
Qed.

(** X1 (lookup finds the nearest binding). [get(n)] from [e] returns [v]
    exactly when the first environment on the parent chain of [e] that
    binds [n] binds it to [v], and fails with [UnboundVariable n] exactly
    when the chain ends at an environment without parent and none of its
    environments binds [n]. *)
Theorem get_finds_nearest_binding (st : State) (e : env_ptr) (n : string) :
  (∀ v, Environment_get st e n = Found v ↔ resolves st n e v) ∧
  (Environment_get st e n = NotFound (UnboundVariable n) ↔ unbound_along st n e).
Proof.
  split.
  - intros v. split; [apply get_rec_Found_resolves|].
    induction 1 as [e E v He Hn | e E p v He Hn Hp Hres IH].
    + by eapply Environment_get_local.
    + rewrite <- IH. apply env_at_Some in He.
      by apply (get_rec_parent (envs st) n e E p).
  - split; [apply get_rec_NotFound_unbound | apply unbound_along_get].
Qed.

(** ** Assignment is by name *)

Lemma get_rec_set_other h e E n m v :
  h !! e = Some (Some E) → m ≠ n →
  ∀ k a, get_rec k (<[e := Some (mkEnvironment (<[m := v]> (vars E)) (parent E))]> h) a n
         = get_rec k h a n.
Proof.
  intros He Hm. induction k as [|k IH]; intros a; [done|].
  rewrite !get_rec_step. destruct (decide (a = e)) as [-> | Ha].
  - rewrite list_lookup_insert_eq by (by eapply lookup_lt_Some).
    rewrite He. cbn [vars parent]. rewrite lookup_insert_ne by done.
    destruct (vars E !! n); [done|]. destruct (parent E); [apply IH|done].
  - rewrite list_lookup_insert_ne by done.
    destruct (h !! a) as [[Ea|]|]; try done.
    destruct (vars Ea !! n); [done|]. destruct (parent Ea); [apply IH|done].
Qed.

(** X2 (assignment is by name). A [set] of the name [m] changes the
    result of no lookup of a different name, from whatever environment the
    lookup starts. *)
Theorem set_keeps_other_names (st : State) (e : env_ptr) (m : string) (v : Value)
    (u : unit) (st' : State) :
  Environment_set e m v st = Ok u st' →
  ∀ n a, n ≠ m → Environment_get st' a n = Environment_get st a n.
Proof.
  unfold Environment_set. destruct (env_at st e) as [E|] eqn:He; [|done].
  intros [= _ <-] n a Hn. apply env_at_Some in He.
  unfold Environment_get. cbn [envs]. rewrite length_insert.
  by apply (get_rec_set_other _ e E).
Qed.

Lemma set_keeps_other_names_witness :
  ∃ st', Environment_set 1 "y" (Value_int 5) example_child_store = Ok tt st' ∧
         Environment_get st' 1 "x" = Environment_get example_child_store 1 "x".
Proof.
  eexists. split; [vm_compute; reflexivity|].
  apply (set_keeps_other_names example_child_store 1 "y" (Value_int 5) tt);
    [vm_compute; reflexivity | discriminate].
Defined.

(** X3 (the last write wins). Setting a name twice in an environment
    leaves the store the second [set] alone would have produced. *)
Theorem set_last_write_wins (st : State) (e : env_ptr) (n : string) (v1 v2 : Value)
    (u : unit) (st1 : State) :
  Environment_set e n v1 st = Ok u st1 →
  Environment_set e n v2 st1 = Environment_set e n v2 st.
Proof.
  unfold Environment_set at 1. destruct (env_at st e) as [E|] eqn:He; [|done].
  intros [= _ <-]. pose proof (env_at_lt _ _ _ He) as Hlt.
  rewrite (Environment_set_live st e E n v2 He).
  erewrite Environment_set_live;
    [|unfold env_at; cbn [envs]; by rewrite list_lookup_insert_eq].
  cbn [envs funcs out vars parent]. by rewrite list_insert_insert_eq, insert_insert_eq.
Qed.

Lemma set_last_write_wins_witness :
  ∃ st1, Environment_set 1 "x" (Value_int 1) example_child_store = Ok tt st1 ∧
         Environment_set 1 "x" (Value_int 2) st1
           = Environment_set 1 "x" (Value_int 2) example_child_store.
Proof.
  eexists. split; [vm_compute; reflexivity|].
  apply (set_last_write_wins example_child_store 1 "x" (Value_int 1) (Value_int 2) tt).
  vm_compute. reflexivity.
Defined.

(** ** Statements on unbound and newly defined names *)

(** X4 (statements on an unbound name). When [n] is bound nowhere along
    the chain of the current environment, assigning from [n], printing [n]
    and calling [n] each fail with [UnboundVariable n] and leave the store
    as it was: no binding is made and nothing is printed. *)
Theorem unbound_variable_aborts_statement (fuel : nat) (n : string) (e : env_ptr)
    (mode : string) (st : State) :
  unbound_along st n e →
  (∀ x, execute_stmt (S fuel) (ASSIGN x (VAR n)) e mode st = Throw (UnboundVariable n) st) ∧
  execute_stmt (S fuel) (PRINT (VAR n)) e mode st = Throw (UnboundVariable n) st ∧
  execute_stmt (S fuel) (CALL n) e mode st = Throw (UnboundVariable n) st.
Proof.
  intros Hun%unbound_along_get. repeat split; intros; cbn [execute_stmt execute_expr];
    by rewrite Hun.
Qed.

Lemma unbound_variable_aborts_statement_witness :
  execute_stmt 1 (PRINT (VAR "y")) 1 "static" example_child_store
    = Throw (UnboundVariable "y") example_child_store ∧
  execute_stmt 1 (CALL "y") 1 "static" example_child_store
    = Throw (UnboundVariable "y") example_child_store.
Proof.
  destruct (unbound_variable_aborts_statement 0 "y" 1 "static" example_child_store)
    as (_ & Hprint & Hcall); [|by split].
  eapply unbound_step; [vm_compute; reflexivity..|].
  eapply unbound_root; vm_compute; reflexivity.
Defined.

(** X5 (define, then call). A function definition that completes
    allocates one new function after the existing ones, with the body given
    and the current environment as definition environment, prints nothing,
    and binds the name to it; a call of the name from the same environment
    is then the invocation of that function. *)
Theorem define_then_call (fuel fuel' : nat) (n : string) (b : list Statement)
    (e : env_ptr) (mode : string) (st : State) (v : Value) (st1 : State) :
  execute_stmt (S fuel) (DEF n b) e mode st = Ok v st1 →
  v = Value_func (length (funcs st)) ∧
  funcs st1 = (funcs st ++ [mkFunction n b (Some e)])%list ∧
  out st1 = out st ∧
  Environment_get st1 e n = Found v ∧
  execute_stmt (S fuel') (CALL n) e mode st1
    = call fuel' (mkFunction n b (Some e)) e mode st1.
Proof.
  intros Hdef. cbn [execute_stmt new_Function] in Hdef. revert Hdef.
  set (st0 := mkState (envs st) _ (out st)).
  destruct (env_at st0 e) as [E|] eqn:He; [|unfold Environment_set; by rewrite He].
  pose proof (env_at_lt _ _ _ He) as Hlt.
  rewrite (Environment_set_live st0 e E n _ He). cbn [bind]. intros [= <- Hst1].
  assert (Hfuncs : funcs st1 = (funcs st ++ [mkFunction n b (Some e)])%list)
    by (by rewrite <- Hst1).
  assert (Hget : Environment_get st1 e n = Found (Value_func (length (funcs st)))).
  { eapply Environment_get_local.
    - rewrite <- Hst1. unfold env_at. cbn [envs]. by rewrite list_lookup_insert_eq.
    - cbn [vars]. apply lookup_insert_eq. }
  split; [done|]. split; [done|]. split; [by rewrite <- Hst1|]. split; [done|].
  rewrite execute_stmt_CALL, Hget. cbn [type func_val Value_func]. rewrite Hfuncs.
  by rewrite lookup_app_r, Nat.sub_diag.
Qed.

Lemma define_then_call_witness :
  ∃ v st1,
    execute_stmt 1 (DEF "h" []) 0 "static" (example_store "static") = Ok v st1 ∧
    Environment_get st1 0 "h" = Found v ∧
    execute_stmt 1 (CALL "h") 0 "static" st1
      = call 0 (mkFunction "h" [] (Some 0)) 0 "static" st1.
Proof.
  eexists _, _. split; [vm_compute; reflexivity|].
  destruct (define_then_call 0 0 "h" [] 0 "static" (example_store "static")
              (Value_func 2)
              (mkState [Some (mkEnvironment
                                (<["h" := Value_func 2]>
                                   (default ∅ (vars <$> env_at (example_store "static") 0)))
                                None)]
                 (funcs (example_store "static") ++ [mkFunction "h" [] (Some 0)])
                 []))
    as (_ & _ & _ & Hget & Hcall); [vm_compute; reflexivity|].
  split; [exact Hget | exact Hcall].
Defined.

(** ** What execution adds to the store *)

Lemma extends_but_refl e st : extends_but e st st.
Proof. repeat split; try done. intros E HE. by exists E. Qed.

Lemma extends_but_trans e st1 st2 st3 :
  extends_but e st1 st2 → extends_but e st2 st3 → extends_but e st1 st3.
Proof.
  intros (Ho1 & Hf1 & Hl1 & Hc1 & He1) (Ho2 & Hf2 & Hl2 & Hc2 & He2).
  split; [by etrans|]. split; [by etrans|]. split; [lia|]. split.
  - intros a Ha Hlt. rewrite Hc2 by (done || lia). by apply Hc1.
  - intros E HE. destruct (He1 E HE) as (E' & HE' & Hp').
    destruct (He2 E' HE') as (E'' & HE'' & Hp''). exists E''. split; congruence.
Qed.

Lemma extends_all_but e st st' : extends_all st st' → extends_but e st st'.
Proof.
  intros (Ho & Hf & Hl & Hc). repeat split; try done.
  - intros a _ Hlt. by apply Hc.
  - intros E HE. exists E. split; [|done]. rewrite Hc; [done|by eapply env_at_lt].
Qed.

Lemma extends_bind {A B : Type} e st (m : outcome A) (k : A → State → outcome B) :
  extends e st m →
  (∀ a st1, extends e st1 (k a st1)) →
  extends e st (bind m k).
Proof.
  destruct m as [a st1|x st1| |]; cbn; intros Hm Hk; try done.
  specialize (Hk a st1). destruct (k a st1); cbn in *; try done;
    by eapply extends_but_trans.
Qed.

Lemma Environment_set_extends e n v st : extends e st (Environment_set e n v st).
Proof.
  unfold Environment_set. destruct (env_at st e) as [E|] eqn:He; [|done].
  pose proof (env_at_lt _ _ _ He) as Hlt. unfold extends, extends_but. cbn [out funcs envs].
  split; [done|]. split; [done|]. split; [by rewrite length_insert|]. split.
  - intros a Ha _. unfold env_at. cbn [envs]. by rewrite list_lookup_insert_ne.
  - intros E0 HE0. eexists. unfold env_at. cbn [envs].
    rewrite list_lookup_insert_eq by done. split; [done|]. cbn. congruence.
Qed.

Lemma execute_expr_extends x e m st : extends e st (execute_expr x e m st).
Proof.
  destruct x as [z|y]; cbn [execute_expr]; [apply extends_but_refl|].
  destruct (Environment_get st e y); cbn; try done; apply extends_but_refl.
Qed.

Lemma for_body_extends exec :
  (∀ s e m st, extends e st (exec s e m st)) →
  ∀ stmts e m result st, extends e st (for_body exec stmts e m result st).
Proof.
  intros Hexec stmts e m. induction stmts as [|s rest IH]; intros result st.
  - apply extends_but_refl.
  - cbn [for_body]. apply extends_bind; [apply Hexec|]. intros. apply IH.
Qed.

(** An invocation, completed or failed, has written to no environment that
    existed before it. *)
Lemma Function_call_extends exec :
  (∀ s e m st, extends e st (exec s e m st)) →
  ∀ f call_env m st,
    match Function_call exec f call_env m st with
    | Ok _ st' | Throw _ st' => extends_all st st'
    | _ => True
    end.
Proof.
  intros Hexec f call_env m st. rewrite Function_call_unfold. cbn zeta.
  set (p := if String.eqb m "static" then definition_env f else Some call_env).
  pose proof (for_body_extends exec Hexec (body f) (length (envs st)) m Value_default
                (new_Environment p st).2) as Hbody.
  assert (Hkeep : ∀ st2, extends_but (length (envs st)) (new_Environment p st).2 st2 →
            out st `prefix_of` out st2 ∧ funcs st `prefix_of` funcs st2 ∧
            length (envs st) ≤ length (envs st2) ∧
            ∀ a, a < length (envs st) → env_at st2 a = env_at st a).
  { intros st2 (Ho & Hf & Hl & Hc & _). cbn in Ho, Hf, Hl.
    rewrite length_app in Hl. cbn in Hl. repeat split; try done; [lia|].
    intros a Ha. rewrite Hc; [|lia|cbn; rewrite length_app; lia].
    apply new_Environment_frame. lia. }
  destruct (for_body exec (body f) _ m Value_default _) as [r st2|x st2| |];
    cbn [bind]; try done.
  - destruct (Hkeep st2 Hbody) as (Ho & Hf & Hl & Hc).
    split; [done|]. split; [done|]. split; [by cbn; rewrite length_insert|].
    intros a Ha. rewrite delete_Environment_frame by lia. by apply Hc.
  - by apply Hkeep.
Qed.

Lemma execute_stmt_extends fuel : ∀ s e m st, extends e st (execute_stmt fuel s e m st).
Proof.
  induction fuel as [|fuel IH]; intros s e m st; [done|].
  destruct s as [n x | x | n | n b].
  - cbn [execute_stmt].
    apply extends_bind; [apply execute_expr_extends|]. intros v st1.
    apply extends_bind; [apply Environment_set_extends|]. intros. apply extends_but_refl.
  - cbn [execute_stmt].
    apply extends_bind; [apply execute_expr_extends|]. intros v st1.
    unfold extends, extends_but. cbn [emit out funcs envs].
    split; [by apply prefix_app_r|]. repeat split; try done.
    intros E HE. by exists E.
  - rewrite execute_stmt_CALL.
    destruct (Environment_get st e n) as [fv| | |]; try done; [|apply extends_but_refl].
    destruct (type fv); [apply extends_but_refl|].
    destruct (func_val fv) as [fp|]; [|done].
    destruct (funcs st !! fp) as [f|]; [|done].
    pose proof (Function_call_extends _ IH f e m st) as Hcall. unfold call.
    destruct (Function_call (execute_stmt fuel) f e m st); try done;
      by apply extends_all_but.
  - cbn [execute_stmt new_Function].
    set (st1 := mkState (envs st) (funcs st ++ [mkFunction n b (Some e)]) (out st)).
    assert (H1 : extends_but e st st1).
    { unfold extends_but. cbn [st1 out funcs envs].
      split; [done|]. split; [by apply prefix_app_r|]. repeat split; try done.
      intros E HE. by exists E. }
    pose proof (Environment_set_extends e n (Value_func (length (funcs st))) st1) as Hset.
    destruct (Environment_set e n _ st1) as [u st2| | |]; try done.
    all: cbn [bind extends] in *; by eapply extends_but_trans.
Qed.

(** X6 (execution only adds). A statement that completes or fails has
    only appended to the output and to the allocated functions, has
    deallocated no cell, has left every environment that existed other than
    the current one as it was, and has kept the current environment, with
    its parent. *)
Theorem statement_only_extends_store (fuel : nat) (s : Statement) (e : env_ptr)
    (m : string) (st : State) :
  match execute_stmt fuel s e m st with
  | Ok _ st' | Throw _ st' =>
      out st `prefix_of` out st' ∧
      funcs st `prefix_of` funcs st' ∧
      length (envs st) ≤ length (envs st') ∧
      (∀ a, a ≠ e → a < length (envs st) → env_at st' a = env_at st a) ∧
      (∀ E, env_at st e = Some E → ∃ E', env_at st' e = Some E' ∧ parent E' = parent E)
  | _ => True
  end.
Proof. exact (execute_stmt_extends fuel s e m st). Qed.

(** X7 (a failed invocation is not cleaned up). When an invocation fails,
    its environment is still allocated in the store the failure carries,
    with the parent the mode chose, and every environment that existed
    before the invocation is as it was. *)
Theorem failed_invocation_keeps_environment (fuel : nat) (f : Function) (call_env : env_ptr)
    (m : string) (st : State) (x : exn) (st' : State) :
  call fuel f call_env m st = Throw x st' →
  (∃ E, env_at st' (length (envs st)) = Some E ∧
        parent E = if String.eqb m "static" then definition_env f else Some call_env) ∧
  (∀ a, a < length (envs st) → env_at st' a = env_at st a).
Proof.
  intros Hcall. split.
  - unfold call in Hcall. rewrite Function_call_unfold in Hcall. cbn zeta in Hcall.
    set (p := if String.eqb m "static" then definition_env f else Some call_env) in *.
    pose proof (for_body_extends _ (execute_stmt_extends fuel) (body f) (length (envs st)) m
                  Value_default (new_Environment p st).2) as Hbody.
    destruct (for_body (execute_stmt fuel) (body f) _ m Value_default _)
      as [r st2|y st2| |]; cbn [bind] in Hcall; try done.
    injection Hcall as _ <-. destruct Hbody as (_ & _ & _ & _ & Hchild).
    destruct (Hchild (mkEnvironment ∅ p)) as (E' & HE' & Hp'); [|by exists E'].
    unfold env_at. cbn. by rewrite lookup_app_r, Nat.sub_diag.
  - pose proof (Function_call_extends _ (execute_stmt_extends fuel) f call_env m st) as H.
    unfold call in Hcall. rewrite Hcall in H. by destruct H as (_ & _ & _ & H).
Qed.

Lemma failed_invocation_keeps_environment_witness :
  ∃ st' E,
    call 1 failing_function 0 "dynamic" (example_store "dynamic")
      = Throw (UnboundVariable "y") st' ∧
    env_at st' 1 = Some E ∧ parent E = Some 0 ∧
    env_at st' 0 = env_at (example_store "dynamic") 0.
Proof.
  destruct (failed_invocation_keeps_environment 1 failing_function 0 "dynamic"
              (example_store "dynamic") (UnboundVariable "y")
              (new_Environment (Some 0) (example_store "dynamic")).2)
    as ((E & HE & Hp) & Hold); [vm_compute; reflexivity|].
  exists (new_Environment (Some 0) (example_store "dynamic")).2, E.
  split; [vm_compute; reflexivity|]. split; [exact HE|]. split; [exact Hp|].
  apply Hold. vm_compute. lia.
Defined.

(** ** No pointer to a deleted environment is followed *)

Lemma no_dangling_empty : no_dangling empty_State.
Proof.
  split; intros a E; intros; exfalso;
    unfold env_at in *; cbn [envs empty_State] in *;
    by rewrite lookup_nil in *.
Qed.

Lemma callable_ext st st' v :
  (∀ a, is_Some (env_at st a) → is_Some (env_at st' a)) →
  funcs st `prefix_of` funcs st' →
  callable st v → callable st' v.
Proof.
  intros Hlive Hf Hv Hty. destruct (Hv Hty) as (fp & f & Hfp & Hlook & Hd).
  exists fp, f. split; [done|]. split; [by eapply prefix_lookup_Some|].
  intros d Hdef. by apply Hlive, Hd.
Qed.

(** In such a store a lookup from a live environment finds a callable value
    or misses; it neither loops nor goes through a dead cell. *)
Lemma no_dangling_lookup st n :
  no_dangling st →
  ∀ a, is_Some (env_at st a) →
    match Environment_get st a n with
    | Found v => callable st v
    | NotFound _ => True
    | _ => False
    end.
Proof.
  intros [Hchain Hvals] a. induction (lt_wf a) as [a _ IH]. intros [E HE].
  destruct (vars E !! n) as [v|] eqn:Hn.
  - rewrite (Environment_get_local st a E n v HE Hn). by eapply Hvals.
  - destruct (parent E) as [p|] eqn:Hp.
    + destruct (Hchain a E p HE Hp) as [Hlt Hlive].
      apply env_at_Some in HE. unfold Environment_get.
      rewrite (get_rec_parent (envs st) n a E p HE Hn Hp). by apply IH.
    + apply env_at_Some in HE. unfold Environment_get.
      by rewrite get_rec_step, HE, Hn, Hp.
Qed.

Lemma no_dangling_set st e E n v :
  no_dangling st → env_at st e = Some E → callable st v →
  no_dangling (mkState (<[e := Some (mkEnvironment (<[n := v]> (vars E)) (parent E))]> (envs st))
                 (funcs st) (out st)).
Proof.
  intros [Hchain Hvals] He Hv. pose proof (env_at_lt _ _ _ He) as Hlt.
  set (st' := mkState _ (funcs st) (out st)).
  assert (Hlive : ∀ a, is_Some (env_at st a) → is_Some (env_at st' a)).
  { intros a Ha. unfold env_at. cbn [st' envs]. destruct (decide (a = e)) as [-> | Hne].
    - by rewrite list_lookup_insert_eq.
    - by rewrite list_lookup_insert_ne. }
  split.
  - intros a E' p. unfold env_at at 1. cbn [st' envs].
    destruct (decide (a = e)) as [-> | Hne].
    + rewrite list_lookup_insert_eq by done. cbn. intros [= <-]. cbn. intros Hp.
      destruct (Hchain e E p He Hp). split; [done|by apply Hlive].
    + rewrite list_lookup_insert_ne by done. intros HE' Hp.
      destruct (Hchain a E' p HE' Hp). split; [done|by apply Hlive].
  - intros a E' n' v'. unfold env_at at 1. cbn [st' envs].
    destruct (decide (a = e)) as [-> | Hne].
    + rewrite list_lookup_insert_eq by done. cbn. intros [= <-]. cbn.
      destruct (decide (n' = n)) as [-> | Hn].
      * rewrite lookup_insert_eq. intros [= <-]. by eapply callable_ext.
      * rewrite lookup_insert_ne by done. intros Hv'.
        eapply callable_ext; [exact Hlive|done|by eapply Hvals].
    + rewrite list_lookup_insert_ne by done. intros HE' Hv'.
      eapply callable_ext; [exact Hlive|done|by eapply Hvals].
Qed.

Lemma no_dangling_ext st st' :
  (∀ a, env_at st' a = env_at st a) →
  funcs st `prefix_of` funcs st' →
  no_dangling st → no_dangling st'.
Proof.
  intros Hcells Hf [Hchain Hvals].
  assert (Hlive : ∀ a, is_Some (env_at st a) → is_Some (env_at st' a))
    by (intros a; by rewrite Hcells).
  split.
  - intros a E p. rewrite Hcells. intros HE Hp.
    destruct (Hchain a E p HE Hp). split; [done|by apply Hlive].
  - intros a E n v. rewrite Hcells. intros HE Hv.
    eapply callable_ext; [exact Hlive|done|by eapply Hvals].
Qed.

Lemma no_dangling_new_Environment p st :
  no_dangling st → (∀ d, p = Some d → is_Some (env_at st d)) →
  no_dangling (new_Environment p st).2.
Proof.
  intros [Hchain Hvals] Hp.
  assert (Hold : ∀ a, a ≠ length (envs st) →
            env_at (new_Environment p st).2 a = env_at st a)
    by (intros; by apply new_Environment_frame).
  assert (Hnew : env_at (new_Environment p st).2 (length (envs st))
                 = Some (mkEnvironment ∅ p))
    by (unfold env_at; cbn; by rewrite lookup_app_r, Nat.sub_diag).
  assert (Hlive : ∀ a, is_Some (env_at st a) → is_Some (env_at (new_Environment p st).2 a)).
  { intros a [E HE]. pose proof (env_at_lt _ _ _ HE). rewrite Hold by lia. by exists E. }
  split.
  - intros a E q. destruct (decide (a = length (envs st))) as [-> | Hne].
    + rewrite Hnew. intros [= <-]. cbn. intros ->.
      destruct (Hp q eq_refl) as [Eq HEq]. pose proof (env_at_lt _ _ _ HEq).
      split; [done|]. apply Hlive. by exists Eq.
    + rewrite Hold by done. intros HE Hq.
      destruct (Hchain a E q HE Hq). split; [done|by apply Hlive].
  - intros a E n v. destruct (decide (a = length (envs st))) as [-> | Hne].
    + rewrite Hnew. intros [= <-]. cbn. by rewrite lookup_empty.
    + rewrite Hold by done. intros HE Hv.
      eapply callable_ext; [exact Hlive|done|by eapply Hvals].
Qed.

Lemma for_body_safe exec :
  runs_safely exec → (∀ s e m st, extends e st (exec s e m st)) →
  ∀ stmts e m result st, no_dangling st → is_Some (env_at st e) →
    match for_body exec stmts e m result st with
    | Ok _ st' => no_dangling st'
    | Undefined => False
    | _ => True
    end.
Proof.
  intros Hsafe Hext stmts e m. induction stmts as [|s rest IH]; intros result st Hst He.
  - done.
  - cbn [for_body]. specialize (Hsafe s e m st Hst He). specialize (Hext s e m st).
    destruct (exec s e m st) as [r st1| | |]; cbn [bind]; try done.
    apply IH; [done|]. destruct He as [E HE].
    destruct Hext as (_ & _ & _ & _ & Hkeep).
    destruct (Hkeep E HE) as (E' & HE' & _). by exists E'.
Qed.

Lemma Function_call_safe exec :
  runs_safely exec → (∀ s e m st, extends e st (exec s e m st)) → writes_own_env exec →
  ∀ f call_env m st,
    no_dangling st → is_Some (env_at st call_env) →
    (∀ d, definition_env f = Some d → is_Some (env_at st d)) →
    match Function_call exec f call_env m st with
    | Ok _ st' => no_dangling st'
    | Undefined => False
    | _ => True
    end.
Proof.
  intros Hsafe Hext Hframe f call_env m st Hst Hce Hdef.
  pose proof (Function_call_frame exec Hframe f call_env m st) as Hcells.
  pose proof (Function_call_extends exec Hext f call_env m st) as Hgrow.
  revert Hcells Hgrow. rewrite Function_call_unfold. cbn zeta.
  set (p := if String.eqb m "static" then definition_env f else Some call_env).
  assert (Hp : ∀ d, p = Some d → is_Some (env_at st d)).
  { subst p. destruct (String.eqb m "static"); [done|]. by intros d [= <-]. }
  pose proof (for_body_safe exec Hsafe Hext (body f) (length (envs st)) m Value_default
                (new_Environment p st).2 (no_dangling_new_Environment p st Hst Hp)) as Hbody.
  destruct (for_body exec (body f) _ m Value_default _) as [r st2| | |];
    cbn [bind]; intros Hcells Hgrow; try done.
  - destruct Hgrow as (_ & Hf & _). eapply no_dangling_ext; [|exact Hf|exact Hst].
    by eapply Hcells.
  - apply Hbody. unfold env_at. cbn. by rewrite lookup_app_r, Nat.sub_diag.
Qed.

Lemma execute_stmt_safe fuel : runs_safely (execute_stmt fuel).
Proof.
  induction fuel as [|fuel IH]; intros s e m st Hst He; [done|].
  destruct He as [E HE].
  destruct s as [n x | x | n | n b].
  - cbn [execute_stmt].
    assert (Hx : match execute_expr x e m st with
                 | Ok v st1 => st1 = st ∧ callable st v
                 | Undefined => False
                 | _ => True
                 end).
    { destruct x as [z|y]; cbn [execute_expr]; [by split|].
      pose proof (no_dangling_lookup st y Hst e (ex_intro _ E HE)) as Hy.
      by destruct (Environment_get st e y). }
    destruct (execute_expr x e m st) as [v st1| | |]; cbn [bind]; try done.
    destruct Hx as [-> Hv]. rewrite (Environment_set_live st e E n v HE). cbn [bind].
    by apply no_dangling_set.
  - cbn [execute_stmt].
    assert (Hx : match execute_expr x e m st with
                 | Ok v st1 => st1 = st
                 | Undefined => False
                 | _ => True
                 end).
    { destruct x as [z|y]; cbn [execute_expr]; [done|].
      pose proof (no_dangling_lookup st y Hst e (ex_intro _ E HE)) as Hy.
      by destruct (Environment_get st e y). }
    destruct (execute_expr x e m st) as [v st1| | |]; cbn [bind]; try done.
    subst st1. by eapply no_dangling_ext; [| |exact Hst].
  - rewrite execute_stmt_CALL.
    pose proof (no_dangling_lookup st n Hst e (ex_intro _ E HE)) as Hn.
    destruct (Environment_get st e n) as [fv| | |]; try done.
    destruct (type fv) eqn:Hty; [done|].
    destruct (Hn Hty) as (fp & f & -> & -> & Hd).
    apply Function_call_safe;
      [done | apply execute_stmt_extends | apply execute_stmt_frame
      | done | by exists E | done].
  - cbn [execute_stmt new_Function].
    set (st1 := mkState (envs st) (funcs st ++ [mkFunction n b (Some e)]) (out st)).
    assert (Hst1 : no_dangling st1)
      by (eapply no_dangling_ext; [| |exact Hst]; [done|by apply prefix_app_r]).
    rewrite (Environment_set_live st1 e E n _ HE). cbn [bind].
    apply (no_dangling_set st1 e E n _ Hst1 HE).
    intros _. exists (length (funcs st)), (mkFunction n b (Some e)).
    split; [done|]. split; [cbn; by rewrite lookup_app_r, Nat.sub_diag|].
    intros d [= <-]. by exists E.
Qed.

(** A statement other than a call does not depend on the call depth
    bound. *)
Lemma execute_stmt_ends_without_call fuel s e m st :
  no_dangling st → is_Some (env_at st e) → is_call s = false →
  execute_stmt (S fuel) s e m st ≠ OutOfFuel.
Proof.
  intros Hst [E HE] Hcall.
  assert (Hget : ∀ y, Environment_get st e y ≠ BadPointer ∧ Environment_get st e y ≠ Cyclic).
  { intros y. pose proof (no_dangling_lookup st y Hst e (ex_intro _ E HE)) as Hy.
    by destruct (Environment_get st e y). }
  destruct s as [n x | x | n | n b]; try done; cbn [execute_stmt].
  - destruct x as [z|y]; cbn [execute_expr bind].
    + by rewrite (Environment_set_live st e E n _ HE).
    + destruct (Hget y). destruct (Environment_get st e y); cbn [bind]; try done.
      by rewrite (Environment_set_live st e E n _ HE).
  - destruct x as [z|y]; cbn [execute_expr bind]; [done|].
    destruct (Hget y). by destruct (Environment_get st e y).
  - cbn [new_Function].
    by rewrite (Environment_set_live
                  (mkState (envs st) (funcs st ++ [mkFunction n b (Some e)]) (out st))
                  e E n _ HE).
Qed.

Lemma example_store_no_dangling mode : no_dangling (example_store mode).
Proof.
  set (st1 := mkState [Some (mkEnvironment ∅ None)] [] []).
  change (example_store mode) with
    (match (let* (_, st2) := for_body (execute_stmt 1) example_program 0 mode
                               Value_default st1 in Ok 0 st2) with
     | Ok _ st => st
     | _ => empty_State
     end).
  assert (Hst1 : no_dangling st1)
    by (by apply (no_dangling_new_Environment None empty_State no_dangling_empty)).
  pose proof (for_body_safe _ (execute_stmt_safe 1) (execute_stmt_extends 1)
                example_program 0 mode Value_default st1 Hst1
                (ex_intro _ (mkEnvironment ∅ None) eq_refl)) as Hsafe.
  destruct (for_body (execute_stmt 1) example_program 0 mode Value_default st1)
    as [r st2| | |]; cbn [bind]; try apply no_dangling_empty. exact Hsafe.
Qed.

(** X8 (no use after free). In a store where no live environment points
    to a deleted one, a statement executed in a live environment never
    follows a dead environment pointer or an invalid function pointer; when
    it completes, the store is again of that kind and the environment still
    live.  There, lookups neither loop nor meet a dead cell, and a statement
    other than a call always ends. *)
Theorem no_use_after_free (fuel : nat) (s : Statement) (e : env_ptr) (m : string) (st : State) :
  no_dangling st → is_Some (env_at st e) →
  execute_stmt fuel s e m st ≠ Undefined ∧
  (∀ v st', execute_stmt fuel s e m st = Ok v st' →
            no_dangling st' ∧ is_Some (env_at st' e)) ∧
  (∀ n, Environment_get st e n ≠ BadPointer ∧ Environment_get st e n ≠ Cyclic) ∧
  (is_call s = false → execute_stmt (S fuel) s e m st ≠ OutOfFuel).
Proof.
  intros Hst He.
  pose proof (execute_stmt_safe fuel s e m st Hst He) as Hsafe.
  pose proof (execute_stmt_extends fuel s e m st) as Hext.
  assert (Hget : ∀ n, Environment_get st e n ≠ BadPointer ∧ Environment_get st e n ≠ Cyclic).
  { intros n. pose proof (no_dangling_lookup st n Hst e He) as Hn.
    by destruct (Environment_get st e n). }
  split; [|split; [|split]].
  - intros Hu. by rewrite Hu in Hsafe.
  - intros v st' Hok. rewrite Hok in Hsafe, Hext. split; [done|].
    destruct He as [E HE]. destruct Hext as (_ & _ & _ & _ & Hkeep).
    destruct (Hkeep E HE) as (E' & HE' & _). by exists E'.
  - exact Hget.
  - intros Hcall. by apply execute_stmt_ends_without_call.
Qed.

Lemma no_use_after_free_witness :
  execute_stmt 3 call_g 0 "static" (example_store "static") ≠ Undefined ∧
  execute_stmt 1 (PRINT (VAR "x")) 0 "static" (example_store "static") ≠ OutOfFuel.
Proof.
  destruct (no_use_after_free 3 call_g 0 "static" (example_store "static"))
    as (Hsafe & _); [apply example_store_no_dangling | vm_compute; eauto |].
  destruct (no_use_after_free 0 (PRINT (VAR "x")) 0 "static" (example_store "static"))
    as (_ & _ & _ & Hends); [apply example_store_no_dangling | vm_compute; eauto |].
  split; [exact Hsafe | by apply Hends].
Defined.

(** X9 ([run_program] follows no dangling pointer). From a store without
    dangling pointers [run_program] never follows a pointer to a deleted
    environment nor an invalid function pointer; when it completes, the
    global environment it returns is the one it allocated, it is live, and
    the store has no dangling pointer, so that further statements can be
    executed there in the same way.  (What a print statement reads from a
    function value is the matter of C10, not of this statement.) *)
Theorem run_program_is_memory_safe (fuel : nat) (program : list Statement) (m : string)
    (st : State) :
  no_dangling st →
  run_program fuel program m st ≠ Undefined ∧
  (∀ env st', run_program fuel program m st = Ok env st' →
              env = length (envs st) ∧ no_dangling st' ∧ is_Some (env_at st' env)).
Proof.
  intros Hst. unfold run_program. cbn [new_Environment].
  set (st1 := mkState (envs st ++ [Some (mkEnvironment ∅ None)]) (funcs st) (out st)).
  assert (Hst1 : no_dangling st1) by (by apply (no_dangling_new_Environment None st)).
  assert (Hg : is_Some (env_at st1 (length (envs st))))
    by (unfold env_at; cbn; by rewrite lookup_app_r, Nat.sub_diag).
  pose proof (for_body_safe _ (execute_stmt_safe fuel) (execute_stmt_extends fuel)
                program (length (envs st)) m Value_default st1 Hst1 Hg) as Hsafe.
  pose proof (for_body_extends _ (execute_stmt_extends fuel)
                program (length (envs st)) m Value_default st1) as Hext.
  destruct (for_body (execute_stmt fuel) program _ m Value_default st1)
    as [r st2| | |]; cbn [bind]; try done.
  split; [done|]. intros env st' [= <- <-]. split; [done|]. split; [done|].
  destruct Hg as [E HE]. destruct Hext as (_ & _ & _ & _ & Hkeep).
  destruct (Hkeep E HE) as (E' & HE' & _). by exists E'.
Qed.

Lemma run_program_is_memory_safe_witness :
  run_program 3 (example_program ++ [call_g]) "dynamic" empty_State ≠ Undefined.
Proof.
  by destruct (run_program_is_memory_safe 3 (example_program ++ [call_g]) "dynamic"
                 empty_State no_dangling_empty).
Defined.

(** ** The scoping rule as a lookup equation *)

Lemma new_Environment_lookup_old p st n :
  no_dangling st →
  ∀ a, is_Some (env_at st a) →
    Environment_get (new_Environment p st).2 a n = Environment_get st a n.
Proof.
  intros [Hchain _] a. induction (lt_wf a) as [a _ IH]. intros [E HE].
  pose proof (env_at_lt _ _ _ HE) as Hlt.
  assert (HE1 : env_at (new_Environment p st).2 a = Some E)
    by (rewrite new_Environment_frame by lia; done).
  destruct (vars E !! n) as [v|] eqn:Hn.
  - by rewrite (Environment_get_local _ a E n v HE1 Hn),
               (Environment_get_local _ a E n v HE Hn).
  - apply env_at_Some in HE1 as HE1'. apply env_at_Some in HE as HE'.
    unfold Environment_get. destruct (parent E) as [q|] eqn:Hq.
    + destruct (Hchain a E q HE Hq) as [Hqa Hqlive].
      rewrite (get_rec_parent _ n a E q HE1' Hn Hq), (get_rec_parent _ n a E q HE' Hn Hq).
      by apply IH.
    + by rewrite !get_rec_step, HE1', HE', Hn, Hq.
Qed.

(** Every name resolves in a newly allocated environment as it does in its
    parent; without parent every name is unbound. *)
Lemma new_child_resolves_like_parent (st : State) (p : option env_ptr) (n : string) :
  no_dangling st →
  (∀ d, p = Some d → is_Some (env_at st d)) →
  Environment_get (new_Environment p st).2 (length (envs st)) n =
    match p with
    | Some d => Environment_get st d n
    | None => NotFound (UnboundVariable n)
    end.
Proof.
  intros Hst Hp.
  assert (Hnew : envs (new_Environment p st).2 !! length (envs st)
                 = Some (Some (mkEnvironment ∅ p)))
    by (cbn; by rewrite lookup_app_r, Nat.sub_diag).
  destruct p as [d|].
  - rewrite <- (new_Environment_lookup_old (Some d) st n Hst d (Hp d eq_refl)).
    by apply (get_rec_parent _ n _ (mkEnvironment ∅ (Some d)) d).
  - unfold Environment_get. rewrite get_rec_step, Hnew. cbn [vars parent].
    by rewrite lookup_empty.
Qed.

Lemma no_dangling_example_shadowed_store : no_dangling example_shadowed_store.
Proof.
  apply (no_dangling_set example_child_store 1 (mkEnvironment ∅ (Some 0)) "x" (Value_int 20)).
  - apply no_dangling_new_Environment; [apply example_store_no_dangling|].
    intros d [= <-]. vm_compute. eauto.
  - vm_compute. reflexivity.
  - intros Hty. discriminate Hty.
Qed.

(** X10 (the scoping rule as a lookup equation). The body of an invocation
    is executed in a store in which every name resolves, from the
    invocation's environment, as it does from the function's definition
    environment when the mode is "static" and from the call-site
    environment otherwise.  So a function whose body prints a name
    completes, returns what that environment resolves the name to and adds
    it to the output. *)
Theorem invocation_resolves_like_parent (fuel : nat) (f : Function) (call_env : env_ptr)
    (mode : string) (st : State) :
  no_dangling st →
  is_Some (env_at st call_env) →
  (∀ d, definition_env f = Some d → is_Some (env_at st d)) →
  let child := length (envs st) in
  let st1 := (new_Environment
                (if String.eqb mode "static" then definition_env f else Some call_env) st).2 in
  let scope := fun n =>
    if String.eqb mode "static"
    then match definition_env f with
         | Some d => Environment_get st d n
         | None => NotFound (UnboundVariable n)
         end
    else Environment_get st call_env n in
  (∀ o, call fuel f call_env mode st = o ↔
        ∃ o', executes_in_order fuel child mode (body f) Value_default st1 o' ∧
              o = leaves child o') ∧
  (∀ n, Environment_get st1 child n = scope n) ∧
  (∀ n v, body f = [PRINT (VAR n)] → scope n = Found v →
          ∃ st', call (S fuel) f call_env mode st = Ok v st' ∧
                 out st' = (out st ++ [print_int (int_val v)])%list ∧
                 ∀ a, env_at st' a = env_at st a).
Proof.
  intros Hst Hce Hdef child st1 scope.
  assert (Hscope : ∀ n, Environment_get st1 child n = scope n).
  { intros n. subst st1 scope child. cbn beta.
    destruct (String.eqb mode "static").
    - by apply new_child_resolves_like_parent.
    - apply (new_child_resolves_like_parent st (Some call_env) n Hst).
      by intros d [= <-]. }
  split; [|split].
  - intros o. apply Function_call_in_order.
  - exact Hscope.
  - intros n v Hbody Hn. rewrite <- Hscope in Hn.
    assert (Hcall : call (S fuel) f call_env mode st
                    = Ok v (delete_Environment child (emit (print_int (int_val v)) st1))).
    { apply Function_call_in_order. eexists. split.
      - rewrite Hbody. eapply in_order_next; [|apply in_order_done].
        cbn [execute_stmt execute_expr]. fold st1 child. by rewrite Hn.
      - done. }
    eexists. split; [exact Hcall|]. split; [done|].
    eapply Function_call_frame; [apply execute_stmt_frame|exact Hcall].
Qed.

Lemma invocation_resolves_like_parent_witness :
  (∃ st', call 1 (mkFunction "f" [PRINT (VAR "x")] (Some 0)) 1 "static"
            example_shadowed_store = Ok (Value_int 10) st' ∧
          out st' = [print_int (Init 10)]) ∧
  (∃ st', call 1 (mkFunction "f" [PRINT (VAR "x")] (Some 0)) 1 "dynamic"
            example_shadowed_store = Ok (Value_int 20) st' ∧
          out st' = [print_int (Init 20)]).
Proof.
  split.
  - destruct (invocation_resolves_like_parent 0
                (mkFunction "f" [PRINT (VAR "x")] (Some 0)) 1 "static"
                example_shadowed_store) as (_ & _ & Hprint);
      [apply no_dangling_example_shadowed_store | vm_compute; eauto
      | intros d [= <-]; vm_compute; eauto |].
    destruct (Hprint "x" (Value_int 10)) as (st' & Hcall & Hout & _);
      [reflexivity | vm_compute; reflexivity |].
    exists st'. split; [exact Hcall|]. rewrite Hout. vm_compute. reflexivity.
  - destruct (invocation_resolves_like_parent 0
                (mkFunction "f" [PRINT (VAR "x")] (Some 0)) 1 "dynamic"
                example_shadowed_store) as (_ & _ & Hprint);
      [apply no_dangling_example_shadowed_store | vm_compute; eauto
      | intros d [= <-]; vm_compute; eauto |].
    destruct (Hprint "x" (Value_int 20)) as (st' & Hcall & Hout & _);
      [reflexivity | vm_compute; reflexivity |].
    exists st'. split; [exact Hcall|]. rewrite Hout. vm_compute. reflexivity.
Defined.

(** ** Isolation of invocations *)

(** With older parents, the chain of an environment older than [a] stays
    below [a]. *)
Lemma get_rec_below h a x n :
  (∀ b E p, h !! b = Some (Some E) → parent E = Some p → p < b) →
  ∀ k b, b < a → get_rec k (<[a := x]> h) b n = get_rec k h b n.
Proof.
  intros Holder. induction k as [|k IH]; intros b Hb; [done|].
  rewrite !get_rec_step, list_lookup_insert_ne by lia.
  destruct (h !! b) as [[E|]|] eqn:HE; try done.
  destruct (vars E !! n); [done|].
  destruct (parent E) as [p|] eqn:Hp; [|done].
  apply IH. specialize (Holder b E p HE Hp). lia.
Qed.

(** A lookup from [e] does not depend on a cell other than [e] that is
    newer than the parent of [e]. *)
Lemma get_ignores_cell st e a x n :
  no_dangling st → a ≠ e →
  (∀ E p, env_at st e = Some E → parent E = Some p → p < a) →
  Environment_get (with_cell a x st) e n = Environment_get st e n.
Proof.
  intros [Hchain _] Hae Hp.
  assert (Holder : ∀ b E p, envs st !! b = Some (Some E) → parent E = Some p → p < b).
  { intros b E p HE%env_at_Some HpE. by destruct (Hchain b E p HE HpE). }
  unfold Environment_get, with_cell. cbn [envs]. rewrite length_insert.
  rewrite !get_rec_step, list_lookup_insert_ne by done.
  destruct (envs st !! e) as [[E|]|] eqn:HE; try done.
  destruct (vars E !! n); [done|].
  destruct (parent E) as [p|] eqn:HpE; [|done].
  apply get_rec_below; [done|]. apply (Hp E p); [by apply env_at_Some|done].
Qed.

(** C8, amended. Of two invocations of a function, neither observes a
    binding the other assigned locally, with one exception: in a mode other
    than "static", an invocation has the call-site environment as parent
    and resolves every name as its caller does, so that an invocation
    nested in another one sees the local bindings of that one.  In detail,
    for the invocation that runs in the environment [c1]:
    - when it completes, its environment is gone, every environment is as it
      was before, and every lookup answers as before: an invocation that
      starts afterwards observes nothing of it;
    - in every mode, no lookup from [c1] depends on the content of an
      environment allocated later, such as that of an invocation nested in
      it;
    - in mode "static", no lookup from the environment of another
      invocation of the function, which has the definition environment as
      parent, depends on the content of [c1], whether that invocation is
      nested in this one, encloses it or is apart from it;
    - in a mode other than "static", the body is executed in a store where
      every name resolves from [c1] as it does from the call site. *)
Theorem invocation_isolation (fuel : nat) (f : Function) (call_env : env_ptr)
    (mode : string) (st : State) :
  let c1 := length (envs st) in
  (∀ v st',
     call fuel f call_env mode st = Ok v st' →
     env_at st' c1 = None ∧
     (∀ a, env_at st' a = env_at st a) ∧
     (∀ e n, Environment_get st' e n = Environment_get st e n)) ∧
  (∀ st3 c2 x n,
     no_dangling st3 → c1 < c2 →
     Environment_get (with_cell c2 x st3) c1 n = Environment_get st3 c1 n) ∧
  (mode = "static" →
   (∀ d, definition_env f = Some d → is_Some (env_at st d)) →
   ∀ call_env2 st3 c2 E2 x n,
     no_dangling st3 → c2 ≠ c1 →
     env_at st3 c2 = Some E2 →
     parent E2 = (if String.eqb mode "static" then definition_env f else Some call_env2) →
     Environment_get (with_cell c1 x st3) c2 n = Environment_get st3 c2 n) ∧
  (mode ≠ "static" →
   no_dangling st → is_Some (env_at st call_env) →
   let st1 := (new_Environment (Some call_env) st).2 in
   (∀ o, call fuel f call_env mode st = o ↔
         ∃ o', executes_in_order fuel c1 mode (body f) Value_default st1 o' ∧
               o = leaves c1 o') ∧
   (∀ n, Environment_get st1 c1 n = Environment_get st call_env n)).
Proof.
  intros c1. subst c1. split; [|split; [|split]].
  - intros v st' Hcall.
    assert (Hcells : ∀ a, env_at st' a = env_at st a)
      by (eapply Function_call_frame; [apply execute_stmt_frame | exact Hcall]).
    split; [|split].
    + rewrite Hcells. unfold env_at. by rewrite lookup_ge_None_2.
    + exact Hcells.
    + by apply Environment_get_ext.
  - intros st3 c2 x n Hst3 Hlt. apply get_ignores_cell; [done|lia|].
    intros E p HE Hp. destruct Hst3 as [Hchain _].
    destruct (Hchain _ E p HE Hp). lia.
  - intros -> Hdef call_env2 st3 c2 E2 x n Hst3 Hne HE2 Hparent.
    apply get_ignores_cell; [done|done|].
    intros E p HE Hp. rewrite HE2 in HE. injection HE as <-.
    cbn in Hparent. rewrite Hparent in Hp.
    destruct (Hdef p Hp) as [Ed HEd]. by eapply env_at_lt.
  - intros Hmode%String.eqb_neq Hst Hce st1. split.
    + intros o. subst st1.
      pose proof (Function_call_in_order fuel f call_env mode st o) as H.
      by rewrite Hmode in H.
    + intros n. apply (new_child_resolves_like_parent st (Some call_env) n Hst).
      by intros d [= <-].
Qed.

Lemma invocation_isolation_witness :
  Environment_get
    (with_cell 1 (Some (mkEnvironment (<["x" := Value_int 20]> ∅) (Some 0)))
       (new_Environment (Some 0) example_child_store).2) 2 "x"
  = Found (Value_int 10) ∧
  Environment_get (new_Environment (Some 1) example_shadowed_store).2 2 "x"
  = Found (Value_int 20).
Proof.
  destruct (invocation_isolation 1
              (mkFunction "g" [ASSIGN "x" (INT_LIT 20); CALL "f"] (Some 0)) 0 "static"
              (example_store "static")) as (_ & _ & Hstatic & _).
  destruct (invocation_isolation 1
              (mkFunction "f" [PRINT (VAR "x")] (Some 0)) 1 "dynamic"
              example_shadowed_store) as (_ & _ & _ & Hdynamic).
  split.
  - rewrite (Hstatic eq_refl) with (call_env2 := 1) (E2 := mkEnvironment ∅ (Some 0)).
    + vm_compute. reflexivity.
    + intros d [= <-]. vm_compute. eauto.
    + apply no_dangling_new_Environment.
      * apply no_dangling_new_Environment; [apply example_store_no_dangling|].
        intros d [= <-]. vm_compute. eauto.
      * intros d [= <-]. vm_compute. eauto.
    + discriminate.
    + vm_compute. reflexivity.
    + reflexivity.
  - destruct Hdynamic as (_ & Hscope);
      [discriminate | apply no_dangling_example_shadowed_store | vm_compute; eauto |].
    etrans; [apply Hscope|]. vm_compute. reflexivity.
Defined.

(** ** Bodies without call statements *)

Lemma execute_stmt_mode_free fuel stmt env m1 m2 st :
  is_call stmt = false →
  execute_stmt fuel stmt env m1 st = execute_stmt fuel stmt env m2 st.
Proof.
  intros Hcall. destruct fuel as [|fuel]; [done|].
  destruct stmt as [n e | e | n | n b]; try done; destruct e; done.
Qed.

Lemma for_body_mode_free fuel stmts env m1 m2 :
  forallb (λ s, negb (is_call s)) stmts = true →
  ∀ result st,
    for_body (execute_stmt fuel) stmts env m1 result st
      = for_body (execute_stmt fuel) stmts env m2 result st.
Proof.
  induction stmts as [|s rest IH]; intros Hall result st; [done|].
  cbn [forallb] in Hall. apply andb_prop in Hall as [Hs Hrest].
  apply negb_true_iff in Hs. cbn [for_body].
  rewrite (execute_stmt_mode_free fuel s env m1 m2 st Hs).
  destruct (execute_stmt fuel s env m2 st); cbn [bind]; auto.
Qed.

(** X11 (modes agree without calls). An invocation from the environment
    the function was defined in, of a body without call statement, has the
    same outcome in every two modes. *)
Theorem modes_agree_without_calls (fuel : nat) (f : Function) (call_env : env_ptr)
    (m1 m2 : string) (st : State) :
  definition_env f = Some call_env →
  forallb (λ s, negb (is_call s)) (body f) = true →
  call fuel f call_env m1 st = call fuel f call_env m2 st.
Proof.
  intros Hdef Hbody. unfold call. rewrite !Function_call_unfold, Hdef.
  destruct (String.eqb m1 "static"), (String.eqb m2 "static"); cbn zeta;
    by rewrite (for_body_mode_free fuel (body f) _ m1 m2 Hbody).
Qed.

Lemma modes_agree_without_calls_witness :
  call 1 (mkFunction "f" [PRINT (VAR "x")] (Some 0)) 0 "static" (example_store "static")
    = call 1 (mkFunction "f" [PRINT (VAR "x")] (Some 0)) 0 "dynamic" (example_store "static").
Proof.
  by apply (modes_agree_without_calls 1 (mkFunction "f" [PRINT (VAR "x")] (Some 0)) 0).
Defined.

(** X14 (bodies without calls end). In a store without dangling pointers,
    an invocation of a function whose body has no call statement completes
    or fails with an exception for every positive call depth bound: it
    neither exhausts the bound nor follows a pointer to a deleted
    environment or an invalid function pointer. *)
Theorem call_free_invocation_terminates (fuel : nat) (f : Function) (call_env : env_ptr)
    (m : string) (st : State) :
  no_dangling st →
  is_Some (env_at st call_env) →
  (∀ d, definition_env f = Some d → is_Some (env_at st d)) →
  forallb (λ s, negb (is_call s)) (body f) = true →
  (∃ v st', call (S fuel) f call_env m st = Ok v st') ∨
  (∃ x st', call (S fuel) f call_env m st = Throw x st').
Proof.
  intros Hst Hce Hdef Hbody. unfold call. rewrite Function_call_unfold. cbn zeta.
  set (p := if String.eqb m "static" then definition_env f else Some call_env).
  assert (Hp : ∀ d, p = Some d → is_Some (env_at st d)).
  { subst p. destruct (String.eqb m "static"); [done|]. by intros d [= <-]. }
  pose proof (no_dangling_new_Environment p st Hst Hp) as Hst1.
  assert (Hc : is_Some (env_at (new_Environment p st).2 (length (envs st))))
    by (unfold env_at; cbn; by rewrite lookup_app_r, Nat.sub_diag).
  assert (Hloop : ∀ stmts, forallb (λ s, negb (is_call s)) stmts = true →
            ∀ result st1, no_dangling st1 → is_Some (env_at st1 (length (envs st))) →
              match for_body (execute_stmt (S fuel)) stmts (length (envs st)) m result st1 with
              | Ok _ _ | Throw _ _ => True
              | _ => False
              end).
  { induction stmts as [|s rest IH]; intros Hall result st1 Hs1 He1; [done|].
    cbn [forallb] in Hall. apply andb_prop in Hall as [Hs%negb_true_iff Hrest].
    cbn [for_body].
    pose proof (execute_stmt_safe (S fuel) s _ m st1 Hs1 He1) as Hsafe.
    pose proof (execute_stmt_extends (S fuel) s (length (envs st)) m st1) as Hext.
    pose proof (execute_stmt_ends_without_call fuel s _ m st1 Hs1 He1 Hs) as Hfuel.
    destruct (execute_stmt (S fuel) s (length (envs st)) m st1) as [r st2| | |];
      cbn [bind]; try done.
    apply IH; [done|done|]. destruct He1 as [E HE].
    destruct Hext as (_ & _ & _ & _ & Hkeep).
    destruct (Hkeep E HE) as (E' & HE' & _). by exists E'. }
  specialize (Hloop (body f) Hbody Value_default _ Hst1 Hc).
  destruct (for_body (execute_stmt (S fuel)) (body f) _ m Value_default _)
    as [r st2|x st2| |]; cbn [bind]; try done; [left|right]; eauto.
Qed.

Lemma call_free_invocation_terminates_witness :
  (∃ v st', call 1 failing_function 0 "static" (example_store "static") = Ok v st') ∨
  (∃ x st', call 1 failing_function 0 "static" (example_store "static") = Throw x st').
Proof.
  apply (call_free_invocation_terminates 0 failing_function 0 "static"
           (example_store "static")).
  - apply example_store_no_dangling.
  - vm_compute. eauto.
  - intros d [= <-]. vm_compute. eauto.
  - reflexivity.
Defined.

(** ** Programs and [main] *)

Lemma bind_assoc {A B C : Type} (m : outcome A) (k : A → State → outcome B)
    (k' : B → State → outcome C) :
  bind (bind m k) k' = bind m (λ a st, bind (k a st) k').
Proof. by destruct m. Qed.

(** X12 (programs compose). Running [p1 ++ p2] is running [p1] and then
    the statements of [p2] in the global environment that run returned;
    this is what [main] relies on when it calls [g] after [run_program]. *)
Theorem run_program_app (fuel : nat) (p1 p2 : list Statement) (mode : string) (st : State) :
  run_program fuel (p1 ++ p2) mode st =
    let* (env, st1) := run_program fuel p1 mode st in
    let* (_, st2) := for_body (execute_stmt fuel) p2 env mode Value_default st1 in
    Ok env st2.
Proof.
  unfold run_program. cbn [new_Environment]. rewrite for_body_app, !bind_assoc.
  destruct (for_body (execute_stmt fuel) p1 _ mode Value_default _) as [r st1| | |];
    cbn [bind]; try done.
  destruct p2 as [|s rest]; done.
Qed.

Lemma main_le fuel fuel' :
  fuel ≤ fuel' → ∀ st, refines (main fuel st) (main fuel' st).
Proof.
  intros Hle st. unfold main.
  apply refines_bind; [by apply run_and_call_g_le|]. intros env1 st1.
  apply refines_bind; [by apply run_and_call_g_le|]. intros; apply refines_refl.
Qed.

(** X13 ([main]). For every call depth bound of at least 3, [main]
    returns 0 after writing the heading of the static run, 10, the heading
    of the dynamic run and 20; both global environments are deleted at the
    end, and the four functions allocated by the two runs are not. *)
Theorem main_prints_10_then_20 (fuel : nat) :
  3 ≤ fuel →
  ∃ st,
    main fuel empty_State = Ok 0%Z st ∧
    out st = [ print_line "Static Scoping Output:"; print_int (Init 10);
               print_line (newline +:+ "Dynamic Scoping Output:"); print_int (Init 20) ] ∧
    (∀ a, env_at st a = None) ∧
    length (funcs st) = 4.
Proof.
  intros Hle. destruct (main_le 3 fuel Hle empty_State) as [H | H].
  - vm_compute in H. discriminate H.
  - rewrite <- H. eexists. split; [vm_compute; reflexivity|].
    split; [vm_compute; reflexivity|]. split; [|vm_compute; reflexivity].
    intros a. do 6 (destruct a as [|a]; [reflexivity|]). reflexivity.
Qed.

Lemma main_prints_10_then_20_witness :
  ∃ st,
    main 5 empty_State = Ok 0%Z st ∧
    out st = [ print_line "Static Scoping Output:"; print_int (Init 10);
               print_line (newline +:+ "Dynamic Scoping Output:"); print_int (Init 20) ] ∧
    (∀ a, env_at st a = None) ∧
    length (funcs st) = 4.
Proof. apply (main_prints_10_then_20 5). lia. Defined.
